(** * Detection post-processing of ImageLoader.predict

    A shallow embedding of [ImageLoader.predict]
    (src/containers/ImageLoader.tsx) and of the helpers of
    [YoloDataProcessingUtil] it calls.

    Numbers.  A JavaScript [number] is modelled as an exact rational [Q]:
    comparisons, [Math.max], [Math.min], [+], [-], [*] and [/] are the exact
    operations, so IEEE rounding, infinities and NaN are outside the model.
    Equality of numbers is [Qeq] ([==]).

    Arrays.  A typed array or JS array is a [list]; reading index [i] is
    stdpp's [l !! i], where [None] stands for JS [undefined]. *)

From Stdlib Require Import QArith Qminmax Qround Lqa Lia String.
From stdpp Require Import base list sorting.
From Equations Require Import Equations.

Local Open Scope Q_scope.

(** ** Data model *)

(** [boxesArr[i]] is destructured as [[top, left, bottom, right]]. *)
Record CornerBox := mkCornerBox {
  top : Q;
  left : Q;
  bottom : Q;
  right : Q
}.

(** interfaces/IRect *)
Record IRect := mkIRect {
  x : Q;
  y : Q;
  width : Q;
  height : Q
}.

(** interfaces/IDetectedObject.  [class] is [classNames[classIndx]], which is
    [undefined] ([None]) when the index has no entry in the table. *)
Record IDetectedObject := mkIDetectedObject {
  class : option string;
  probability : Q;
  rect : IRect
}.

(** ** The consumer-boundary clamping of [predict] (lines 106-111) *)

Definition clampBox (maxPix : Q) (b : CornerBox) : CornerBox :=
  let top := Qmax 0 (top b) in
  let left := Qmax 0 (left b) in
  let bottom := Qmin maxPix (bottom b) in
  let right := Qmin maxPix (right b) in
  mkCornerBox top left bottom right.

(** The [rect] literal of [nextObject] (lines 116-121), from the clamped
    corners. *)
Definition rectOf (c : CornerBox) : IRect :=
  {| x := left c;
     y := top c;
     width := right c - left c;
     height := bottom c - top c |}.

(** The CornerBox invariant of the data model. *)
Definition wellFormed (b : CornerBox) : Prop :=
  top b <= bottom b /\ left b <= right b.


(** ** Errors

    [predict] is an async function: an exception thrown on the way rejects
    the promise.  [Ok] is a resolved value, [Err] a rejection. *)

Inductive Error := ShapeError | RangeError | TypeError.

Inductive result (A : Type) :=
| Ok (a : A)
| Err (e : Error).
Arguments Ok {A} a.
Arguments Err {A} e.

#[global] Instance result_ret : MRet result := fun A a => Ok a.
#[global] Instance result_bind : MBind result := fun A B f m =>
  match m with
  | Ok a => f a
  | Err e => Err e
  end.

(** Reading an array cell that must hold a value. *)
Definition readOr {A} (e : Error) (l : list A) (i : nat) : result A :=
  match l !! i with
  | Some a => Ok a
  | None => Err e
  end.

(** [a < b] on numbers, as a boolean. *)
Definition Qlt_bool (a b : Q) : bool := negb (Qle_bool b a).

Definition Qnat (n : nat) : Q := inject_Z (Z.of_nat n).

(** ** Configuration

    [AppSettings] and the class-name table [cocoClasses] are imported by
    ImageLoader.tsx from modules that are not part of the sources at hand;
    they are parameters of the model. *)

Record Anchor := mkAnchor {
  anchorWidth : Q;
  anchorHeight : Q
}.

Record AppSettings := mkAppSettings {
  yoloModelAnchors : list Anchor;
  yoloModelClassCount : nat;
  yoloModelIouThreshold : Q;
  yoloModelClassProbThreshold : Q;
  yoloModelInputPixelSize : Q
}.

(** The instance fields of [ImageLoader] initialised from the settings
    (lines 30-32). *)
Definition iouThreshold (s : AppSettings) : Q := yoloModelIouThreshold s.
Definition classProbThreshold (s : AppSettings) : Q := yoloModelClassProbThreshold s.
Definition maxPix (s : AppSettings) : Q := yoloModelInputPixelSize s.

(** The squashing functions of the tensor library.  They are transcendental,
    so the model takes them as an interface. *)
Class TfMath := {
  sigmoid : Q -> Q;
  exp : Q -> Q
}.

(** ** GridDecoder *)

(** A dense tensor of shape [[gridHeight, gridWidth, numAnchors, depth]]
    with its values in row-major order. *)
Record RawOutput := mkRawOutput {
  gridHeight : nat;
  gridWidth : nat;
  numAnchors : nat;
  depth : nat;
  values : list Q
}.

Module DecodedBox.
Record t := mk {
  centerX : Q;
  centerY : Q;
  width : Q;
  height : Q;
  confidence : Q;
  classProbs : list Q
}.
End DecodedBox.

(** Entry [k] of the last axis at cell [(row, col)] and anchor [a]. *)
Definition cellValue (raw : RawOutput) (row col a k : nat) : Q :=
  default 0
    (values raw !! (((row * gridWidth raw + col) * numAnchors raw + a) * depth raw + k)%nat).

(** Modelled from the spec: the per-box formulas of GridDecoder.decode
    (section 4.1); YoloDataProcessingUtil.yoloHead is not among the sources.
    The last axis is [[tx, ty, tw, th, objectness, classLogit_0 ...]]. *)
Definition decodeBox `{TfMath} (raw : RawOutput) (anchors : list Anchor)
    (numClasses : nat) (row col a : nat) : DecodedBox.t :=
  let anchor := default (mkAnchor 0 0) (anchors !! a) in
  let tx := cellValue raw row col a 0 in
  let ty := cellValue raw row col a 1 in
  let tw := cellValue raw row col a 2 in
  let th := cellValue raw row col a 3 in
  let objectness := cellValue raw row col a 4 in
  {| DecodedBox.centerX := (sigmoid tx + Qnat col) / Qnat (gridWidth raw);
     DecodedBox.centerY := (sigmoid ty + Qnat row) / Qnat (gridHeight raw);
     DecodedBox.width := anchorWidth anchor * exp tw / Qnat (gridWidth raw);
     DecodedBox.height := anchorHeight anchor * exp th / Qnat (gridHeight raw);
     DecodedBox.confidence := sigmoid objectness;
     DecodedBox.classProbs :=
       map (fun i => sigmoid (cellValue raw row col a (5 + i))) (seq 0 numClasses) |}.

(** Modelled from the spec: GridDecoder.decode (section 4.1), one box per
    grid cell and anchor, cells in row-major order; [ShapeError] when the
    last dimension is not [5 + numClasses] or the anchor count differs from
    the tensor's.  YoloDataProcessingUtil.yoloHead is not among the
    sources. *)
Definition decode `{TfMath} (raw : RawOutput) (anchors : list Anchor)
    (numClasses : nat) : result (list DecodedBox.t) :=
  if ((depth raw =? 5 + numClasses) && (length anchors =? numAnchors raw))%nat
  then
    Ok (flat_map (fun row =>
          flat_map (fun col =>
            map (fun a => decodeBox raw anchors numClasses row col a)
                (seq 0 (numAnchors raw)))
            (seq 0 (gridWidth raw)))
          (seq 0 (gridHeight raw)))
  else Err ShapeError.

(** Modelled from the spec: the call [yoloHead(modelOutput, anchors,
    numClasses)] of [predict] (line 63) returns the decoded boxes as four
    parallel tensors [[boxXY, boxWH, boxConfidence, boxClassProbs]]. *)
Definition yoloHead `{TfMath} (modelOutput : RawOutput) (anchors : list Anchor)
    (numClasses : nat)
  : result (list (Q * Q) * list (Q * Q) * list Q * list (list Q)) :=
  decoded ← decode modelOutput anchors numClasses;
  mret (map (fun d => (DecodedBox.centerX d, DecodedBox.centerY d)) decoded,
        map (fun d => (DecodedBox.width d, DecodedBox.height d)) decoded,
        map DecodedBox.confidence decoded,
        map DecodedBox.classProbs decoded).

(** ** CoordinateMapper *)

(** Modelled from the spec: CoordinateMapper.toCorners (section 4.2). *)
Definition toCorners (b : DecodedBox.t) : CornerBox :=
  {| top := DecodedBox.centerY b - DecodedBox.height b / 2;
     left := DecodedBox.centerX b - DecodedBox.width b / 2;
     bottom := DecodedBox.centerY b + DecodedBox.height b / 2;
     right := DecodedBox.centerX b + DecodedBox.width b / 2 |}.

(** Modelled from the spec: the call [boxesToCorners(boxXY, boxWH)] of
    [predict] (line 65) is [toCorners] on each centre and size. *)
Definition boxesToCorners (boxXY boxWH : list (Q * Q)) : list CornerBox :=
  zip_with (fun xy wh =>
    toCorners (DecodedBox.mk (fst xy) (snd xy) (fst wh) (snd wh) 0 []))
    boxXY boxWH.

(** ** ScoreFilter *)

Record ScoredBox := mkScoredBox {
  box : CornerBox;
  classIndex : nat;
  score : Q
}.

(** Index of the largest entry, the lowest index among equal ones. *)
Fixpoint argmaxFrom (best : nat) (bestVal : Q) (i : nat) (l : list Q) : nat :=
  match l with
  | [] => best
  | v :: l' =>
      if Qlt_bool bestVal v then argmaxFrom i v (S i) l'
      else argmaxFrom best bestVal (S i) l'
  end.

Definition argmax (l : list Q) : nat :=
  match l with
  | [] => 0%nat
  | v :: l' => argmaxFrom 0 v 1 l'
  end.

(** Modelled from the spec: the per-box step of ScoreFilter.filter
    (section 4.3): [classIndex = argmax(classProbs)],
    [score = confidence * classProbs[classIndex]]. *)
Definition scoreBox (corners : CornerBox) (confidence : Q) (classProbs : list Q)
  : ScoredBox :=
  let classIndex := argmax classProbs in
  {| box := corners;
     classIndex := classIndex;
     score := confidence * default 0 (classProbs !! classIndex) |}.

(** The scored form of a decoded box paired with its corners. *)
Definition scorePair (p : DecodedBox.t * CornerBox) : ScoredBox :=
  scoreBox (snd p) (DecodedBox.confidence (fst p)) (DecodedBox.classProbs (fst p)).

Module ScoreFilter.
(** Modelled from the spec: ScoreFilter.filter (section 4.3) keeps the
    boxes with [score >= minScore]; YoloDataProcessingUtil.filterBoxes is
    not among the sources. *)
Definition filter (boxes : list (DecodedBox.t * CornerBox)) (minScore : Q)
  : list ScoredBox :=
  List.filter (fun sb => Qle_bool minScore (score sb)) (map scorePair boxes).
End ScoreFilter.

(** The parallel tensors handed to [filterBoxes], box by box. *)
Definition candidates (allBoxes : list CornerBox) (boxConfidence : list Q)
    (boxClassProbs : list (list Q)) : list (DecodedBox.t * CornerBox) :=
  zip_with (fun c p => (DecodedBox.mk 0 0 0 0 (fst p) (snd p), c))
    allBoxes (zip boxConfidence boxClassProbs).

(** Modelled from the spec: the call [filterBoxes(allBoxes, boxConfidence,
    boxClassProbs, threshold)] of [predict] (line 70) is ScoreFilter.filter
    on the parallel tensors; it answers [[boxes, scores, classes]], with
    [boxes] being [null] ([None] here) when no box is left, which is what
    [predict] tests at line 74. *)
Definition filterBoxes (allBoxes : list CornerBox) (boxConfidence : list Q)
    (boxClassProbs : list (list Q)) (threshold : Q)
  : option (list CornerBox * list Q * list nat) :=
  match ScoreFilter.filter (candidates allBoxes boxConfidence boxClassProbs) threshold with
  | [] => None
  | kept => Some (map box kept, map score kept, map classIndex kept)
  end.

(** The candidates of [filterBoxes] with their class and score. *)
Definition scoredCandidates (allBoxes : list CornerBox) (boxConfidence : list Q)
    (boxClassProbs : list (list Q)) : list ScoredBox :=
  map scorePair (candidates allBoxes boxConfidence boxClassProbs).

(** ** Suppressor *)

(** Area of a box; a malformed box ([top > bottom] or [left > right])
    counts as zero-area. *)
Definition area (b : CornerBox) : Q :=
  Qmax 0 (bottom b - top b) * Qmax 0 (right b - left b).

Definition intersectionArea (a b : CornerBox) : Q :=
  Qmax 0 (Qmin (bottom a) (bottom b) - Qmax (top a) (top b))
  * Qmax 0 (Qmin (right a) (right b) - Qmax (left a) (left b)).

Definition unionArea (a b : CornerBox) : Q :=
  area a + area b - intersectionArea a b.

(** Modelled from the spec: IoU of section 4.4, with an empty union treated
    as IoU 0; the IoU helper of YoloDataProcessingUtil is not among the
    sources. *)
Definition IoU (a b : CornerBox) : Q :=
  if Qeq_bool (unionArea a b) 0 then 0
  else intersectionArea a b / unionArea a b.

Definition boxAt (boxes : list CornerBox) (i : nat) : CornerBox :=
  default (mkCornerBox 0 0 0 0) (boxes !! i).

Definition scoreAt (scores : list Q) (i : nat) : Q :=
  default 0 (scores !! i).

(** Index [i] comes no later than index [j]: higher score first, equal
    scores by ascending index. *)
Definition precedes (scores : list Q) (i j : nat) : bool :=
  match scoreAt scores i ?= scoreAt scores j with
  | Gt => true
  | Lt => false
  | Eq => (i <=? j)%nat
  end.

Definition scoreOrder (scores : list Q) : relation nat :=
  fun i j => precedes scores i j = true.

#[global] Instance scoreOrder_dec scores : RelDecision (scoreOrder scores) :=
  fun i j => decide (precedes scores i j = true).

(** Step 1 of the algorithm: the indices in selection order. *)
Definition sortIndices (scores : list Q) : list nat :=
  merge_sort (scoreOrder scores) (seq 0 (length scores)).

(** Box [j] is removed when box [i] is selected. *)
Definition suppresses (boxes : list CornerBox) (iouThreshold : Q) (i j : nat) : bool :=
  Qlt_bool iouThreshold (IoU (boxAt boxes i) (boxAt boxes j)).

(** One suppression step: what the selected box [i] leaves of [rest]. *)
Definition survivors (boxes : list CornerBox) (iouThreshold : Q) (i : nat)
    (rest : list nat) : list nat :=
  List.filter (fun j => negb (suppresses boxes iouThreshold i j)) rest.

(** Steps 2-4: pop the first index, keep it, drop what it suppresses. *)
Equations? nmsLoop (boxes : list CornerBox) (iouThreshold : Q)
    (remaining : list nat) : list nat by wf (length remaining) lt :=
  nmsLoop boxes iouThreshold [] := [];
  nmsLoop boxes iouThreshold (i :: rest) :=
    i :: nmsLoop boxes iouThreshold (survivors boxes iouThreshold i rest).
Proof.
  simpl. apply Nat.lt_succ_r. apply List.filter_length_le.
Qed.

(** Modelled from the spec: the kept indices of the Suppressor
    (section 4.4). *)
Definition keptIndices (boxes : list CornerBox) (scores : list Q)
    (iouThreshold : Q) : list nat :=
  nmsLoop boxes iouThreshold (sortIndices scores).

(** Modelled from the spec: Suppressor.suppress (section 4.4), the kept
    boxes in selection order. *)
Definition suppress (boxes : list ScoredBox) (iouThreshold : Q) : list ScoredBox :=
  omap (fun i => boxes !! i)
    (keptIndices (map box boxes) (map score boxes) iouThreshold).

(** Modelled from the spec: the call [nonMaxSuppression(boxes, scores,
    iouThreshold)] of [predict] (line 89) answers [[keepIndx, boxesArr,
    keepScores]]: the kept indices with their boxes and scores;
    YoloDataProcessingUtil.nonMaxSuppression is not among the sources. *)
Definition nonMaxSuppression (boxes : list CornerBox) (scores : list Q)
    (iouThreshold : Q) : list nat * list CornerBox * list Q :=
  let keepIndx := keptIndices boxes scores iouThreshold in
  (keepIndx,
   map (boxAt boxes) keepIndx,
   map (scoreAt scores) keepIndx).

(** The boxes share no interior point. *)
Definition disjoint (a b : CornerBox) : Prop :=
  bottom a <= top b \/ bottom b <= top a \/ right a <= left b \/ right b <= left a.

(** Box [a] contains box [b]. *)
Definition contains (a b : CornerBox) : Prop :=
  top a <= top b /\ bottom b <= bottom a /\ left a <= left b /\ right b <= right a.

(** A box of zero area, malformed ones included. *)
Definition degenerate (a : CornerBox) : Prop :=
  bottom a <= top a \/ right a <= left a.

(** Index [i] is selected strictly before index [j]: by descending score,
    equal scores by ascending index. *)
Definition selectedBefore (scores : list Q) (i j : nat) : Prop :=
  scoreAt scores j < scoreAt scores i
  \/ (scoreAt scores i == scoreAt scores j /\ (i < j)%nat).

(** ** ImageLoader.predict *)

(** [tf.mul(boxes, imageDims)] with [imageDims = [height, width, height,
    width]] (lines 78-83). *)
Definition mulImageDims (height width : Q) (boxes : list CornerBox) : list CornerBox :=
  map (fun b => mkCornerBox (top b * height) (left b * width)
                            (bottom b * height) (right b * width)) boxes.

(** [classes.gather(keepIndx)] (line 95); an index outside [classes] is an
    error of the tensor library. *)
Definition gather (classes : list nat) (indices : list nat) : result (list nat) :=
  foldr (fun i acc => c ← readOr RangeError classes i; l ← acc; mret (c :: l))
        (mret []) indices.

(** The callback of [classesIndxArr.forEach] (lines 99-125): the early
    [return] leaves [results] as it is, otherwise one object is pushed.
    [keepScores] and [boxesArr] hold one entry per kept index; destructuring
    a missing [boxesArr[i]] throws a TypeError, and a missing [keepScores[i]],
    which the type [number] of [probability] excludes, is reported the same
    way. *)
Definition detect (s : AppSettings) (classNames : list string)
    (keepScores : list Q) (boxesArr : list CornerBox)
    (results : list IDetectedObject) (classIndx i : nat)
  : result (list IDetectedObject) :=
  classProbability ← readOr TypeError keepScores i;
  if Qlt_bool classProbability (classProbThreshold s) then mret results
  else
    let className := classNames !! classIndx in
    corners ← readOr TypeError boxesArr i;
    let clamped := clampBox (maxPix s) corners in
    let nextObject :=
      {| class := className;
         probability := classProbability;
         rect := rectOf clamped |} in
    mret (results ++ [nextObject]).

(** [array.forEach(callback)], the callback receiving the element and its
    index. *)
Fixpoint forEach {A B} (callback : B -> A -> nat -> result B) (i : nat)
    (array : list A) (acc : B) : result B :=
  match array with
  | [] => mret acc
  | a :: rest => acc' ← callback acc a i; forEach callback (S i) rest acc'
  end.

(** [predict] from line 70 on, given what [filterBoxes] answered. *)
Definition predictFiltered (s : AppSettings) (classNames : list string)
    (filtered : option (list CornerBox * list Q * list nat))
  : result (list IDetectedObject) :=
  match filtered with
  | None => mret []
  | Some (boxes, scores, classes) =>
      let width := maxPix s in
      let height := maxPix s in
      let boxes := mulImageDims height width boxes in
      let '(keepIndx, boxesArr, keepScores) :=
        nonMaxSuppression boxes scores (iouThreshold s) in
      classesIndxArr ← gather classes keepIndx;
      forEach (detect s classNames keepScores boxesArr) 0 classesIndxArr []
  end.

(** The coarse threshold handed to [filterBoxes] (line 71). *)
Definition preFilterThreshold : Q := 1 # 100.

(** [predict] (lines 46-127) on the tensor [modelOutput] that the network
    answered for the cropped image. *)
Definition predict `{TfMath} (s : AppSettings) (classNames : list string)
    (modelOutput : RawOutput) : result (list IDetectedObject) :=
  let anchors := yoloModelAnchors s in
  let numClasses := yoloModelClassCount s in
  '(boxXY, boxWH, boxConfidence, boxClassProbs) ←
    yoloHead modelOutput anchors numClasses;
  let allBoxes := boxesToCorners boxXY boxWH in
  predictFiltered s classNames
    (filterBoxes allBoxes boxConfidence boxClassProbs preFilterThreshold).

(** A rectangle lies inside the model-input square. *)
Definition insideSquare (maxPix : Q) (r : IRect) : Prop :=
  0 <= x r /\ 0 <= y r /\ x r + width r <= maxPix /\ y r + height r <= maxPix.

(** ** The detections in the words of the spec *)

(** The scored boxes with their corners in pixels of the model input. *)
Definition scaleToModel (s : AppSettings) (boxes : list ScoredBox) : list ScoredBox :=
  map (fun sb =>
    mkScoredBox
      (mkCornerBox (top (box sb) * maxPix s) (left (box sb) * maxPix s)
                   (bottom (box sb) * maxPix s) (right (box sb) * maxPix s))
      (classIndex sb) (score sb)) boxes.

(** The boxes that pass the display threshold. *)
Definition displayed (s : AppSettings) (kept : list ScoredBox) : list ScoredBox :=
  List.filter (fun sb => Qle_bool (classProbThreshold s) (score sb)) kept.

(** The Detection of a scored box: class name from the table, the score as
    probability, the rect from the clamped corners. *)
Definition detectionOf (s : AppSettings) (classNames : list string) (sb : ScoredBox)
  : IDetectedObject :=
  let c := clampBox (maxPix s) (box sb) in
  {| class := classNames !! classIndex sb;
     probability := score sb;
     rect := {| x := left c; y := top c;
                width := right c - left c; height := bottom c - top c |} |}.

(** The decoded boxes with their corners, as the score filter takes them. *)
Definition withCorners (decoded : list DecodedBox.t) : list (DecodedBox.t * CornerBox) :=
  map (fun d => (d, toCorners d)) decoded.

(** ** Sample data *)

(** A box above the frame: [top = -5], [bottom = -2]. *)
Definition offImageBox : CornerBox := mkCornerBox (-5) 0 (-2) 10.

(** A box that sticks out of the frame on the left and on the right. *)
Definition overhangingBox : CornerBox := mkCornerBox 10 (-5) 20 500.

(** A rational stand-in for the squashing functions, with values in (0,1)
    for [sigmoid] and positive values for [exp]. *)
Definition rationalTf : TfMath :=
  {| sigmoid := fun v => if Qle_bool 0 v then 1 - 1 / (2 * (1 + v))
                         else 1 / (2 * (1 - v));
     exp := fun v => if Qle_bool 0 v then 1 + v else 1 / (1 - v) |}.

Definition demoSettings : AppSettings :=
  {| yoloModelAnchors := [mkAnchor (1 # 2) (1 # 2)];
     yoloModelClassCount := 1;
     yoloModelIouThreshold := 1 # 2;
     yoloModelClassProbThreshold := 1 # 2;
     yoloModelInputPixelSize := 416 |}.

Definition demoClassNames : list string := ["person"%string].

(** A 1x1 grid with one anchor and one class; objectness and class logit 5. *)
Definition demoOutput : RawOutput :=
  mkRawOutput 1 1 1 6 [0; 0; 0; 0; 5; 5].

(** The same cell with objectness logit -200: its score is below 0.01. *)
Definition quietOutput : RawOutput :=
  mkRawOutput 1 1 1 6 [0; 0; 0; 0; -200; 5].

(** Three candidates with scores 0.72, 0.3 and 0.02. *)
Definition sampleCandidates : list (DecodedBox.t * CornerBox) :=
  [ (DecodedBox.mk 0 0 0 0 (9 # 10) [1 # 10; 8 # 10], mkCornerBox 0 0 1 1);
    (DecodedBox.mk 0 0 0 0 (1 # 2) [6 # 10; 6 # 10], mkCornerBox 0 0 2 2);
    (DecodedBox.mk 0 0 0 0 (1 # 10) [2 # 10], mkCornerBox 1 1 2 2) ].

(** The boxes of the IoU examples. *)
Definition unitBox : CornerBox := mkCornerBox 0 0 1 1.
Definition farBox : CornerBox := mkCornerBox 2 2 3 3.
Definition halfBox : CornerBox := mkCornerBox 0 0 1 (1 # 2).
Definition malformedBox : CornerBox := mkCornerBox 1 0 0 1.

(** Four boxes in descending score order: the second overlaps the first,
    the third and the fourth overlap the second. *)
Definition crowdedBoxes : list ScoredBox :=
  [ mkScoredBox (mkCornerBox 5 0 15 10) 0 (9 # 10);
    mkScoredBox (mkCornerBox 0 0 10 10) 0 (8 # 10);
    mkScoredBox (mkCornerBox 0 (-3) 10 7) 0 (7 # 10);
    mkScoredBox (mkCornerBox 0 3 10 13) 0 (6 # 10) ].

(** ** The canvases of [loadScaledImageToCanvas] and [drawPredRects] *)

(** The loaded image, by its intrinsic size in pixels. *)
Record HTMLImageElement := mkImage {
  naturalWidth : Z;
  naturalHeight : Z
}.

Module Canvas.
(** [canvas.width] and [canvas.height]: unsigned integers. *)
Record t := mk {
  width : Z;
  height : Z
}.
End Canvas.

Module Rect.
(** utils/geometry/Rect, built by [new Rect(x, y, width, height)]. *)
Record t := mk {
  x : Q;
  y : Q;
  width : Q;
  height : Q
}.
End Rect.

(** A number assigned to an [unsigned long] attribute is truncated towards
    zero and taken modulo 2^32. *)
Definition toUnsignedLong (v : Q) : Z :=
  ((Qnum v ÷ Z.pos (Qden v)) mod 2 ^ 32)%Z.

(** Assigning [canvas.width] or [canvas.height]: the attribute keeps a
    value of 0 .. 2^31 - 1 and falls back to its default otherwise. *)
Definition reflectDimension (defaultValue : Z) (v : Q) : Z :=
  let n := toUnsignedLong v in
  if (n <=? 2147483647)%Z then n else defaultValue.

Definition defaultCanvasWidth : Z := 300.
Definition defaultCanvasHeight : Z := 150.

(** [this.img.naturalWidth / this.img.naturalHeight] (line 130). *)
Definition aspectRatio (img : HTMLImageElement) : Q :=
  inject_Z (naturalWidth img) / inject_Z (naturalHeight img).

(** Lines 130-138: the passive canvas takes [maxPix] on the shorter side of
    the image and scales the other side by the aspect ratio. *)
Definition sizePassiveCanvas (maxPix : Q) (img : HTMLImageElement) : Canvas.t :=
  let aspectRatio := aspectRatio img in
  if (naturalHeight img <=? naturalWidth img)%Z then
    let height := reflectDimension defaultCanvasHeight maxPix in
    let width := reflectDimension defaultCanvasWidth (maxPix * aspectRatio) in
    Canvas.mk width height
  else
    let width := reflectDimension defaultCanvasWidth maxPix in
    let height := reflectDimension defaultCanvasHeight (maxPix / aspectRatio) in
    Canvas.mk width height.

(** Lines 140-141: the active canvas is given the size of the passive one. *)
Definition sizeActiveCanvas (passiveCanvas : Canvas.t) : Canvas.t :=
  Canvas.mk
    (reflectDimension defaultCanvasWidth (inject_Z (Canvas.width passiveCanvas)))
    (reflectDimension defaultCanvasHeight (inject_Z (Canvas.height passiveCanvas))).

(** [drawPredRects] (lines 171-181): the square that [predict] crops, in
    the middle of the canvas.  The two [DrawUtil] calls only paint. *)
Definition drawPredRects (passiveCanvas : Canvas.t) : Rect.t :=
  let width := inject_Z (Canvas.width passiveCanvas) in
  let height := inject_Z (Canvas.height passiveCanvas) in
  let size := Qmin width height in
  Rect.mk (width / 2 - size / 2) (height / 2 - size / 2) size size.

(** What [loadScaledImageToCanvas] leaves on the component before it calls
    [predict]. *)
Record Board := mkBoard {
  passiveCanvas : Canvas.t;
  activeCanvas : Canvas.t;
  predictionsRect : Rect.t
}.

Definition layoutBoard (maxPix : Q) (img : HTMLImageElement) : Board :=
  let passiveCanvas := sizePassiveCanvas maxPix img in
  {| passiveCanvas := passiveCanvas;
     activeCanvas := sizeActiveCanvas passiveCanvas;
     predictionsRect := drawPredRects passiveCanvas |}.

(** The callback of [predictions.forEach] (lines 153-157): the rect is moved
    by the corner of [predictionsRect], then painted. *)
Definition placePrediction (predictionsRect : Rect.t) (prediction : IDetectedObject)
  : IDetectedObject :=
  {| class := class prediction;
     probability := probability prediction;
     rect := {| x := x (rect prediction) + Rect.x predictionsRect;
                y := y (rect prediction) + Rect.y predictionsRect;
                width := width (rect prediction);
                height := height (rect prediction) |} |}.

(** [loadScaledImageToCanvas] (lines 129-159): the board, and the
    predictions handed to [DrawUtil.drawPredictionRect] once [predict] has
    resolved; [modelOutput] is what the network answers for the crop. *)
Definition loadScaledImageToCanvas `{TfMath} (s : AppSettings)
    (classNames : list string) (img : HTMLImageElement) (modelOutput : RawOutput)
  : Board * result (list IDetectedObject) :=
  let board := layoutBoard (maxPix s) img in
  (board,
   predictions ← predict s classNames modelOutput;
   mret (map (placePrediction (predictionsRect board)) predictions)).

(** The region [pixels.slice([y, x, 0], [maxPix, maxPix, 3])] of [predict]
    (line 57) lies within the image data of the passive canvas. *)
Definition cropInBounds (maxPix : Q) (b : Board) : Prop :=
  0 <= Rect.x (predictionsRect b)
  /\ 0 <= Rect.y (predictionsRect b)
  /\ Rect.x (predictionsRect b) + maxPix <= inject_Z (Canvas.width (passiveCanvas b))
  /\ Rect.y (predictionsRect b) + maxPix <= inject_Z (Canvas.height (passiveCanvas b)).

(** A rect lies within another. *)
Definition insideRect (outer : Rect.t) (r : IRect) : Prop :=
  Rect.x outer <= x r /\ Rect.y outer <= y r
  /\ x r + width r <= Rect.x outer + Rect.width outer
  /\ y r + height r <= Rect.y outer + Rect.height outer.

(** A rect lies within a canvas. *)
Definition insideCanvas (c : Canvas.t) (r : IRect) : Prop :=
  0 <= x r /\ 0 <= y r
  /\ x r + width r <= inject_Z (Canvas.width c)
  /\ y r + height r <= inject_Z (Canvas.height c).

(** ** The component *)

(** [interface State] (lines 12-15). *)
Record State := mkState {
  isPredictionActive : bool;
  isLoading : bool
}.

(** The argument of [setState]: the fields to replace. *)
Record StateUpdate := mkStateUpdate {
  newIsPredictionActive : option bool;
  newIsLoading : option bool
}.

Definition setState (u : StateUpdate) (st : State) : State :=
  {| isPredictionActive := default (isPredictionActive st) (newIsPredictionActive u);
     isLoading := default (isLoading st) (newIsLoading u) |}.

(** What [render] returns (lines 183-198): the loading screen, or the
    loader with its file input, with or without the two canvases. *)
Inductive View :=
| LoadingScreen
| ImageLoaderView (boardWrapper : bool).

Definition render (st : State) : View :=
  if isLoading st then LoadingScreen
  else ImageLoaderView (isPredictionActive st).

(** The fields of the component that its handlers write: the state, the
    loaded model and the source of [img]. *)
Record ImageLoader (Model : Type) := mkImageLoader {
  state : State;
  model : option Model;
  imgSrc : option string
}.
Arguments mkImageLoader {Model} state model imgSrc.
Arguments state {Model} _.
Arguments model {Model} _.
Arguments imgSrc {Model} _.

(** The constructor (lines 19-22) and the field initialisers. *)
Definition constructor {Model} : ImageLoader Model :=
  mkImageLoader (mkState false true) None None.

(** [loadModel] resolving, followed by the [then] of [componentDidMount]
    (lines 36-38 and 42-44). *)
Definition modelLoaded {Model} (m : Model) (c : ImageLoader Model) : ImageLoader Model :=
  mkImageLoader (setState (mkStateUpdate None (Some false)) (state c))
    (Some m) (imgSrc c).

(** [onImageUpload] (lines 161-169); [files] is [event.target.files]. *)
Definition onImageUpload {Model File} (createObjectURL : File -> string)
    (files : list File) (c : ImageLoader Model) : ImageLoader Model :=
  match files !! 0%nat with
  | Some file =>
      let url := createObjectURL file in
      mkImageLoader (setState (mkStateUpdate (Some true) None) (state c))
        (model c) (Some url)
  | None => c
  end.

(** What can happen to a mounted component. *)
Inductive Event (Model File : Type) :=
| ModelLoaded (m : Model)
| ImageUpload (files : list File)
| ImageLoad.
Arguments ModelLoaded {Model File} m.
Arguments ImageUpload {Model File} files.
Arguments ImageLoad {Model File}.

(** The handler of each event; the [load] handler of [img] paints and
    leaves these fields alone. *)
Definition handle {Model File} (createObjectURL : File -> string)
    (c : ImageLoader Model) (e : Event Model File) : ImageLoader Model :=
  match e with
  | ModelLoaded m => modelLoaded m c
  | ImageUpload files => onImageUpload createObjectURL files c
  | ImageLoad => c
  end.

(** When the page can deliver an event: the model resolves once; the file
    input fires only while it is rendered; [img] fires [load] only after
    its [src] has been set. *)
Definition enabled {Model File} (c : ImageLoader Model) (e : Event Model File) : bool :=
  match e with
  | ModelLoaded _ => match model c with None => true | Some _ => false end
  | ImageUpload _ => match render (state c) with LoadingScreen => false | _ => true end
  | ImageLoad => match imgSrc c with Some _ => true | None => false end
  end.

(** A run of events from a component, [None] when the page cannot deliver
    one of them. *)
Fixpoint run {Model File} (createObjectURL : File -> string)
    (events : list (Event Model File)) (c : ImageLoader Model)
  : option (ImageLoader Model) :=
  match events with
  | [] => Some c
  | e :: rest =>
      if enabled c e then run createObjectURL rest (handle createObjectURL c e)
      else None
  end.

(** Images of 640x480, 300x500 and 512x512 pixels. *)
Definition landscapeImage : HTMLImageElement := mkImage 640 480.
Definition squareImage : HTMLImageElement := mkImage 512 512.

(** The image is decoded and [maxPix] is a pixel count [m] that the canvas
    can hold on both sides once scaled. *)
Definition scalable (maxPix : Q) (m : Z) (img : HTMLImageElement) : Prop :=
  (0 < naturalWidth img)%Z /\ (0 < naturalHeight img)%Z
  /\ maxPix == inject_Z m /\ (0 <= m)%Z
  /\ maxPix * aspectRatio img < 2147483648
  /\ maxPix / aspectRatio img < 2147483648.


(** What holds of the component fields all along a run: the loading flag
    is up exactly while there is no model, the board is asked for exactly
    once [img] has a source, and that only happens after loading. *)
Definition consistent {Model} (c : ImageLoader Model) : Prop :=
  (isLoading (state c) = true <-> model c = None)
  /\ (isPredictionActive (state c) = true <-> imgSrc c <> None)
  /\ (imgSrc c <> None -> isLoading (state c) = false).

(** A stand-in for [URL.createObjectURL] on files given by their name. *)
Definition blobUrl (name : string) : string := String.append "blob:" name.

(** * Properties *)

(** ** Numbers *)

Lemma Qlt_bool_true (a b : Q) : Qlt_bool a b = true <-> a < b.
Proof.
  unfold Qlt_bool. rewrite negb_true_iff. split.
  - intros H. apply Qnot_le_lt. intros Hle.
    apply Qle_bool_iff in Hle. congruence.
  - intros H. destruct (Qle_bool b a) eqn:E; [|reflexivity].
    apply Qle_bool_iff in E. lra.
Qed.

Lemma Qlt_bool_false (a b : Q) : Qlt_bool a b = false <-> b <= a.
Proof.
  unfold Qlt_bool. rewrite negb_false_iff. apply Qle_bool_iff.
Qed.

Lemma Qmax_case_le (a b : Q) :
  (a <= b /\ Qmax a b == b) \/ (b <= a /\ Qmax a b == a).
Proof.
  destruct (Q.max_spec a b) as [[H E]|[H E]]; [left|right]; split; auto.
  apply Qlt_le_weak; exact H.
Qed.

Lemma Qmin_case_le (a b : Q) :
  (a <= b /\ Qmin a b == a) \/ (b <= a /\ Qmin a b == b).
Proof.
  destruct (Q.min_spec a b) as [[H E]|[H E]]; [left|right]; split; auto.
  apply Qlt_le_weak; exact H.
Qed.

(** ** Clamping *)

Lemma clamp_interval_iff (maxPix lo hi : Q) :
  Qmax 0 lo <= Qmin maxPix hi <->
  lo <= hi /\ 0 <= hi /\ lo <= maxPix /\ 0 <= maxPix.
Proof.
  split.
  - intros H.
    destruct (Qmax_case_le 0 lo) as [[H1 E1]|[H1 E1]];
    destruct (Qmin_case_le maxPix hi) as [[H2 E2]|[H2 E2]];
    rewrite E1, E2 in H; repeat split; lra.
  - intros (H1 & H2 & H3 & H4).
    destruct (Qmax_case_le 0 lo) as [[H5 E1]|[H5 E1]];
    destruct (Qmin_case_le maxPix hi) as [[H6 E2]|[H6 E2]];
    rewrite E1, E2; lra.
Qed.

(** Clamping keeps the invariant exactly for the boxes that meet the
    square [[0, maxPix]] in both directions. *)
Lemma clampBox_wellFormed_iff (maxPix : Q) (b : CornerBox) :
  wellFormed (clampBox maxPix b) <->
  wellFormed b /\ 0 <= maxPix
  /\ 0 <= bottom b /\ top b <= maxPix
  /\ 0 <= right b /\ left b <= maxPix.
Proof.
  unfold wellFormed, clampBox; simpl.
  rewrite !clamp_interval_iff. tauto.
Qed.

(** C1, as stated, fails: a well-formed box that lies above the frame is
    clamped to [top = 0 > bottom = -2]. *)
Lemma clamp_breaks_invariant :
  wellFormed offImageBox /\ ~ wellFormed (clampBox 416 offImageBox).
Proof.
  split.
  - unfold wellFormed, offImageBox; simpl. split; lra.
  - intros [H _]. vm_compute in H. apply H. reflexivity.
Qed.

(** C1, amended: for every CornerBox with [top <= bottom] and
    [left <= right] that meets the model-input square ([0 <= bottom],
    [top <= maxPix], [0 <= right], [left <= maxPix], with [0 <= maxPix]),
    the clamping step of [predict] yields a box that still satisfies
    [top <= bottom] and [left <= right]. *)
Theorem clampBox_keeps_invariant (maxPix : Q) (b : CornerBox) :
  wellFormed b ->
  0 <= maxPix ->
  0 <= bottom b -> top b <= maxPix ->
  0 <= right b -> left b <= maxPix ->
  wellFormed (clampBox maxPix b).
Proof.
  intros Hwf Hm Hb Ht Hr Hl.
  apply clampBox_wellFormed_iff. tauto.
Qed.

Lemma clampBox_keeps_invariant_witness :
  wellFormed (clampBox 416 overhangingBox).
Proof.
  apply (clampBox_keeps_invariant 416 overhangingBox);
    unfold wellFormed, overhangingBox; simpl; try split; lra.
Defined.

(** ** The results of [predict] lie in the square *)

Lemma rectOf_clampBox_inside (maxPix : Q) (b : CornerBox) :
  insideSquare maxPix (rectOf (clampBox maxPix b)).
Proof.
  unfold insideSquare, rectOf, clampBox; simpl.
  repeat split.
  - apply Q.le_max_l.
  - apply Q.le_max_l.
  - assert (E : Qmax 0 (left b) + (Qmin maxPix (right b) - Qmax 0 (left b))
                 == Qmin maxPix (right b)) by ring.
    rewrite E. apply Q.le_min_l.
  - assert (E : Qmax 0 (top b) + (Qmin maxPix (bottom b) - Qmax 0 (top b))
                 == Qmin maxPix (bottom b)) by ring.
    rewrite E. apply Q.le_min_l.
Qed.

Lemma forEach_invariant {A B} (I : B -> Prop) (callback : B -> A -> nat -> result B) :
  (forall acc a i acc', callback acc a i = Ok acc' -> I acc -> I acc') ->
  forall array i acc r,
    forEach callback i array acc = Ok r -> I acc -> I r.
Proof.
  intros Hstep array. induction array as [|a rest IH]; intros i acc r Hrun Hacc.
  - simpl in Hrun. injection Hrun as <-. exact Hacc.
  - simpl in Hrun. destruct (callback acc a i) as [acc'|e] eqn:E.
    + simpl in Hrun. eapply IH; [exact Hrun|]. eapply Hstep; eauto.
    + discriminate Hrun.
Qed.

Lemma detect_inside s classNames keepScores boxesArr results classIndx i results' :
  detect s classNames keepScores boxesArr results classIndx i = Ok results' ->
  Forall (fun d => insideSquare (maxPix s) (rect d)) results ->
  Forall (fun d => insideSquare (maxPix s) (rect d)) results'.
Proof.
  unfold detect, readOr. intros Hrun Hres.
  destruct (keepScores !! i) as [p|]; simpl in Hrun; [|discriminate].
  destruct (Qlt_bool p (classProbThreshold s)).
  - injection Hrun as <-. exact Hres.
  - destruct (boxesArr !! i) as [c|]; simpl in Hrun; [|discriminate].
    injection Hrun as <-. apply Forall_app. split; [exact Hres|].
    constructor; [|constructor]. simpl. apply rectOf_clampBox_inside.
Qed.

Lemma predictFiltered_inside s classNames filtered dets :
  predictFiltered s classNames filtered = Ok dets ->
  Forall (fun d => insideSquare (maxPix s) (rect d)) dets.
Proof.
  unfold predictFiltered. destruct filtered as [[[boxes scores] classes]|].
  - destruct (nonMaxSuppression _ _ _) as [[keepIndx boxesArr] keepScores].
    destruct (gather classes keepIndx) as [cs|e]; simpl; [|discriminate].
    intros Hrun.
    eapply (forEach_invariant (Forall (fun d => insideSquare (maxPix s) (rect d))));
      [|exact Hrun|constructor].
    intros acc a i acc'. apply detect_inside.
  - intros H. injection H as <-. constructor.
Qed.

Lemma predict_unfold `{TfMath} s classNames raw dets :
  predict s classNames raw = Ok dets ->
  exists filtered, predictFiltered s classNames filtered = Ok dets.
Proof.
  unfold predict.
  destruct (yoloHead raw _ _) as [[[[xy wh] conf] probs]|e]; simpl; [|discriminate].
  eauto.
Qed.

(** C10: every Detection in the sequence returned by [predict] has a rect
    inside the model-input square: [x >= 0], [y >= 0],
    [x + width <= maxPix] and [y + height <= maxPix]. *)
Theorem predict_rect_inside `{TfMath} (s : AppSettings) (classNames : list string)
    (modelOutput : RawOutput) (dets : list IDetectedObject) (d : IDetectedObject) :
  predict s classNames modelOutput = Ok dets ->
  d ∈ dets ->
  0 <= x (rect d) /\ 0 <= y (rect d)
  /\ x (rect d) + width (rect d) <= maxPix s
  /\ y (rect d) + height (rect d) <= maxPix s.
Proof.
  intros Hrun Hin.
  destruct (predict_unfold _ _ _ _ Hrun) as [filtered Hf].
  apply predictFiltered_inside in Hf.
  rewrite Forall_forall in Hf. exact (Hf d Hin).
Qed.

Lemma predict_rect_inside_witness :
  exists d,
    predict (H := rationalTf) demoSettings demoClassNames demoOutput = Ok [d]
    /\ 0 <= x (rect d) /\ 0 <= y (rect d)
    /\ x (rect d) + width (rect d) <= maxPix demoSettings
    /\ y (rect d) + height (rect d) <= maxPix demoSettings.
Proof.
  set (d := match predict (H := rationalTf) demoSettings demoClassNames demoOutput with
            | Ok (d :: _) => d
            | _ => mkIDetectedObject None 0 (mkIRect 0 0 0 0)
            end).
  assert (Hrun : predict (H := rationalTf) demoSettings demoClassNames demoOutput
                 = Ok [d]) by (vm_compute; reflexivity).
  exists d. split; [exact Hrun|].
  apply (predict_rect_inside (H := rationalTf) demoSettings demoClassNames demoOutput
           [d] d Hrun).
  apply list_elem_of_here.
Defined.

(** ** Nothing left after filtering *)

Lemma filter_nil_iff {A} (f : A -> bool) (l : list A) :
  List.filter f l = [] <-> Forall (fun a => f a = false) l.
Proof.
  induction l as [|a l IH]; simpl.
  - split; [constructor|reflexivity].
  - destruct (f a) eqn:E.
    + split; [discriminate|]. intros Hall. inversion Hall; congruence.
    + rewrite IH. split; [constructor; assumption|].
      intros Hall. inversion Hall; assumption.
Qed.

Lemma filterBoxes_None_iff allBoxes boxConfidence boxClassProbs threshold :
  filterBoxes allBoxes boxConfidence boxClassProbs threshold = None <->
  Forall (fun sb => score sb < threshold)
    (scoredCandidates allBoxes boxConfidence boxClassProbs).
Proof.
  unfold filterBoxes, ScoreFilter.filter, scoredCandidates.
  set (cands := map scorePair _).
  destruct (List.filter _ cands) as [|sb kept] eqn:E.
  - split; [intros _|reflexivity].
    apply filter_nil_iff in E. eapply Forall_impl; [exact E|].
    intros sb Hsb. simpl in Hsb.
    apply Qnot_le_lt. intros Hle. apply Qle_bool_iff in Hle. congruence.
  - split; [discriminate|]. intros Hall.
    assert (Hnil : List.filter (fun sb => Qle_bool threshold (score sb)) cands = []).
    { apply filter_nil_iff. eapply Forall_impl; [exact Hall|].
      intros sb' Hlt. simpl in Hlt.
      destruct (Qle_bool threshold (score sb')) eqn:Eb; [|reflexivity].
      apply Qle_bool_iff in Eb. lra. }
    congruence.
Qed.

Lemma gather_nil classes : gather classes [] = Ok [].
Proof. reflexivity. Qed.

(** C2: when every candidate box is removed by the score filter, or no
    index is kept by suppression, [predict] answers the empty list: a
    resolved value, neither an error nor [null].  [filterBoxes] reports
    "all filtered" exactly when every candidate scores below the threshold. *)
Theorem predict_nothing_detected `{TfMath} (s : AppSettings)
    (classNames : list string) (modelOutput : RawOutput) :
  predictFiltered s classNames None = Ok []
  /\ (forall boxXY boxWH boxConfidence boxClassProbs,
        yoloHead modelOutput (yoloModelAnchors s) (yoloModelClassCount s)
          = Ok (boxXY, boxWH, boxConfidence, boxClassProbs) ->
        Forall (fun sb => score sb < preFilterThreshold)
          (scoredCandidates (boxesToCorners boxXY boxWH) boxConfidence boxClassProbs) ->
        predict s classNames modelOutput = Ok [])
  /\ (forall boxes scores classes,
        keptIndices (mulImageDims (maxPix s) (maxPix s) boxes) scores (iouThreshold s) = [] ->
        predictFiltered s classNames (Some (boxes, scores, classes)) = Ok []).
Proof.
  split; [reflexivity|]. split.
  - intros xy wh conf probs Hhead Hall.
    unfold predict. rewrite Hhead. simpl.
    apply filterBoxes_None_iff in Hall. rewrite Hall. reflexivity.
  - intros boxes scores classes Hkept.
    unfold predictFiltered, nonMaxSuppression. rewrite Hkept. reflexivity.
Qed.

Lemma predict_nothing_detected_witness :
  predict (H := rationalTf) demoSettings demoClassNames quietOutput = Ok []
  /\ predictFiltered demoSettings demoClassNames (Some ([], [], [])) = Ok [].
Proof.
  destruct (predict_nothing_detected (H := rationalTf) demoSettings
              demoClassNames quietOutput) as (_ & Hfilter & Hkeep).
  split.
  - destruct (yoloHead (H := rationalTf) quietOutput
                (yoloModelAnchors demoSettings) (yoloModelClassCount demoSettings))
      as [[[[xy wh] conf] probs]|e] eqn:E; [|vm_compute in E; discriminate E].
    apply (Hfilter xy wh conf probs eq_refl).
    vm_compute in E. injection E as <- <- <- <-.
    repeat constructor.
  - apply Hkeep. reflexivity.
Defined.

(** ** ScoreFilter *)

Lemma filter_sublist_mono {A} (f g : A -> bool) (l : list A) :
  (forall a, f a = true -> g a = true) ->
  List.filter f l `sublist_of` List.filter g l.
Proof.
  intros Hfg. induction l as [|a l IH]; simpl; [constructor|].
  destruct (f a) eqn:Ef.
  - rewrite (Hfg a Ef). constructor. exact IH.
  - destruct (g a); [constructor|]; exact IH.
Qed.

Lemma argmaxFrom_spec (l : list Q) (best : nat) (bestVal : Q) (i : nat) :
  (best < i)%nat ->
  let r := argmaxFrom best bestVal i l in
  (r = best \/ (i <= r < i + length l)%nat)
  /\ (r = best -> Forall (fun v => v <= bestVal) l)
  /\ (forall v, l !! (r - i)%nat = Some v -> r <> best ->
        bestVal < v /\ Forall (fun w => w <= v) l
        /\ forall k w, (k < r - i)%nat -> l !! k = Some w -> w < v).
Proof.
  revert best bestVal i. induction l as [|v l IH]; intros best bestVal i Hlt; simpl.
  - split; [left; reflexivity|]. split; [constructor|]. intros w Hw. discriminate.
  - destruct (Qlt_bool bestVal v) eqn:E.
    + apply Qlt_bool_true in E.
      destruct (IH i v (S i) (Nat.lt_succ_diag_r i)) as (Hr & Hbest & Hother).
      set (r := argmaxFrom i v (S i) l) in *.
      split; [right; lia|]. split; [intros ->; lia|].
      intros w Hw Hne.
      destruct Hr as [Hr|Hr].
      * rewrite Hr in *. replace (i - i)%nat with 0%nat in Hw by lia.
        simpl in Hw. injection Hw as <-.
        split; [exact E|]. split.
        -- constructor; [lra|]. apply Hbest. reflexivity.
        -- intros k w Hk. lia.
      * replace (r - i)%nat with (S (r - S i)) in * by lia. simpl in Hw.
        destruct (Hother w Hw ltac:(lia)) as (Hvw & Hall & Hfirst).
        split; [lra|]. split.
        -- constructor; [lra|exact Hall].
        -- intros [|k] u Hk Hu; simpl in Hu.
           ++ injection Hu as <-. exact Hvw.
           ++ apply (Hfirst k u); [lia|exact Hu].
    + apply Qlt_bool_false in E.
      destruct (IH best bestVal (S i) ltac:(lia)) as (Hr & Hbest & Hother).
      set (r := argmaxFrom best bestVal (S i) l) in *.
      split; [destruct Hr; [left; assumption|right; lia]|].
      split; [intros Hrb; constructor; [exact E|apply Hbest; exact Hrb]|].
      intros w Hw Hne.
      destruct Hr as [Hr|Hr]; [contradiction|].
      replace (r - i)%nat with (S (r - S i)) in * by lia. simpl in Hw.
      destruct (Hother w Hw Hne) as (Hvw & Hall & Hfirst).
      split; [exact Hvw|]. split.
      * constructor; [lra|exact Hall].
      * intros [|k] u Hk Hu; simpl in Hu.
        -- injection Hu as <-. lra.
        -- apply (Hfirst k u); [lia|exact Hu].
Qed.

(** [argmax] picks a largest entry, the first one among equals. *)
Lemma argmax_spec (l : list Q) (v : Q) :
  l !! argmax l = Some v ->
  Forall (fun w => w <= v) l
  /\ forall k w, (k < argmax l)%nat -> l !! k = Some w -> w < v.
Proof.
  destruct l as [|v0 l]; [discriminate|]. unfold argmax.
  destruct (argmaxFrom_spec l 0 v0 1 Nat.lt_0_1) as (Hr & Hbest & Hother).
  set (r := argmaxFrom 0 v0 1 l) in *. intros Hv.
  destruct (Nat.eq_dec r 0%nat) as [E|E].
  - rewrite E in *. simpl in Hv. injection Hv as <-.
    split; [constructor; [lra|apply Hbest; reflexivity]|].
    intros k w Hk. lia.
  - destruct Hr as [Hr|Hr]; [contradiction|].
    replace r with (S (r - 1)) in Hv by lia. simpl in Hv.
    destruct (Hother v Hv E) as (Hvw & Hall & Hfirst).
    split; [constructor; [lra|exact Hall]|].
    intros [|k] w Hk Hw; simpl in Hw.
    + injection Hw as <-. exact Hvw.
    + apply (Hfirst k w); [lia|exact Hw].
Qed.

Lemma elem_of_scoreFilter boxes minScore sb :
  sb ∈ ScoreFilter.filter boxes minScore <->
  sb ∈ map scorePair boxes /\ minScore <= score sb.
Proof.
  unfold ScoreFilter.filter.
  rewrite !list_elem_of_In, List.filter_In, Qle_bool_iff. reflexivity.
Qed.

(** C7: raising [minScore] never enlarges the output of
    ScoreFilter.filter: for [s1 <= s2] the boxes kept with [s2] are a
    subsequence of those kept with [s1], so there are no more of them; a
    box is kept exactly when its score, [confidence * classProbs[classIndex]],
    is at least [minScore].  The bound holds for thresholds of any sign. *)
Theorem scoreFilter_threshold_monotone (boxes : list (DecodedBox.t * CornerBox))
    (s1 s2 : Q) :
  s1 <= s2 ->
  (length (ScoreFilter.filter boxes s2) <= length (ScoreFilter.filter boxes s1))%nat
  /\ ScoreFilter.filter boxes s2 `sublist_of` ScoreFilter.filter boxes s1
  /\ (forall m sb, sb ∈ ScoreFilter.filter boxes m <->
        sb ∈ map scorePair boxes /\ m <= score sb)
  /\ (forall p, p ∈ boxes ->
        classIndex (scorePair p) = argmax (DecodedBox.classProbs (fst p))
        /\ score (scorePair p) =
             DecodedBox.confidence (fst p)
             * default 0 (DecodedBox.classProbs (fst p) !! classIndex (scorePair p))).
Proof.
  intros Hle.
  assert (Hsub : ScoreFilter.filter boxes s2 `sublist_of` ScoreFilter.filter boxes s1).
  { apply filter_sublist_mono. intros sb Hsb.
    apply Qle_bool_iff in Hsb. apply Qle_bool_iff. lra. }
  split; [apply sublist_length; exact Hsub|].
  split; [exact Hsub|].
  split; [intros m sb; apply elem_of_scoreFilter|].
  intros p _. split; reflexivity.
Qed.

Lemma scoreFilter_threshold_monotone_witness :
  1 # 10 <= 1 # 2
  /\ (length (ScoreFilter.filter sampleCandidates (1 # 2))
      <= length (ScoreFilter.filter sampleCandidates (1 # 10)))%nat.
Proof.
  assert (H : 1 # 10 <= 1 # 2) by lra.
  split; [exact H|].
  exact (proj1 (scoreFilter_threshold_monotone sampleCandidates (1 # 10) (1 # 2) H)).
Defined.

(** ** Intersection over union *)

(** One-dimensional extent and overlap. *)
Lemma span_nonneg (lo hi : Q) : 0 <= Qmax 0 (hi - lo).
Proof. apply Q.le_max_l. Qed.

Lemma span_degenerate (lo hi : Q) : hi <= lo -> Qmax 0 (hi - lo) == 0.
Proof.
  intros H. destruct (Qmax_case_le 0 (hi - lo)) as [[H1 E]|[H1 E]]; rewrite E; lra.
Qed.

Lemma span_proper (lo hi : Q) : lo <= hi -> Qmax 0 (hi - lo) == hi - lo.
Proof.
  intros H. destruct (Qmax_case_le 0 (hi - lo)) as [[H1 E]|[H1 E]]; rewrite E; lra.
Qed.

Lemma overlap_le_span (lo1 hi1 lo2 hi2 : Q) :
  Qmax 0 (Qmin hi1 hi2 - Qmax lo1 lo2) <= Qmax 0 (hi1 - lo1).
Proof.
  destruct (Qmin_case_le hi1 hi2) as [[H1 E1]|[H1 E1]];
  destruct (Qmax_case_le lo1 lo2) as [[H2 E2]|[H2 E2]];
  destruct (Qmax_case_le 0 (Qmin hi1 hi2 - Qmax lo1 lo2)) as [[H3 E3]|[H3 E3]];
  destruct (Qmax_case_le 0 (hi1 - lo1)) as [[H4 E4]|[H4 E4]];
  rewrite E3, E4; rewrite E1, E2 in H3; lra.
Qed.

Lemma overlap_comm (lo1 hi1 lo2 hi2 : Q) :
  Qmax 0 (Qmin hi1 hi2 - Qmax lo1 lo2) == Qmax 0 (Qmin hi2 hi1 - Qmax lo2 lo1).
Proof.
  rewrite (Q.min_comm hi1 hi2), (Q.max_comm lo1 lo2). reflexivity.
Qed.

Lemma overlap_disjoint (lo1 hi1 lo2 hi2 : Q) :
  hi1 <= lo2 \/ hi2 <= lo1 -> Qmax 0 (Qmin hi1 hi2 - Qmax lo1 lo2) == 0.
Proof.
  intros H. apply span_degenerate.
  destruct (Qmin_case_le hi1 hi2) as [[H1 E1]|[H1 E1]];
  destruct (Qmax_case_le lo1 lo2) as [[H2 E2]|[H2 E2]];
  rewrite E1, E2; destruct H; lra.
Qed.

Lemma overlap_contained (lo1 hi1 lo2 hi2 : Q) :
  lo1 <= lo2 -> hi2 <= hi1 ->
  Qmax 0 (Qmin hi1 hi2 - Qmax lo1 lo2) == Qmax 0 (hi2 - lo2).
Proof.
  intros Hlo Hhi.
  destruct (Qmin_case_le hi1 hi2) as [[H1 E1]|[H1 E1]];
  destruct (Qmax_case_le lo1 lo2) as [[H2 E2]|[H2 E2]];
  destruct (Qmax_case_le 0 (Qmin hi1 hi2 - Qmax lo1 lo2)) as [[H3 E3]|[H3 E3]];
  destruct (Qmax_case_le 0 (hi2 - lo2)) as [[H4 E4]|[H4 E4]];
  rewrite E3, E4; rewrite E1, E2 in H3; try rewrite E1, E2; lra.
Qed.

Lemma area_nonneg (a : CornerBox) : 0 <= area a.
Proof. apply Qmult_le_0_compat; apply span_nonneg. Qed.

Lemma intersectionArea_nonneg (a b : CornerBox) : 0 <= intersectionArea a b.
Proof. apply Qmult_le_0_compat; apply span_nonneg. Qed.

Lemma Qmult_le_compat_nonneg (p q r t : Q) :
  0 <= p -> p <= q -> 0 <= r -> r <= t -> p * r <= q * t.
Proof.
  intros Hp Hpq Hr Hrt.
  apply Qle_trans with (q * r).
  - apply Qmult_le_compat_r; assumption.
  - rewrite (Qmult_comm q r), (Qmult_comm q t).
    apply Qmult_le_compat_r; [assumption|]. lra.
Qed.

Lemma intersectionArea_le_l (a b : CornerBox) : intersectionArea a b <= area a.
Proof.
  apply Qmult_le_compat_nonneg;
    auto using span_nonneg, overlap_le_span.
Qed.

Lemma intersectionArea_comm (a b : CornerBox) :
  intersectionArea a b == intersectionArea b a.
Proof.
  unfold intersectionArea.
  rewrite (overlap_comm (top a)), (overlap_comm (left a)). reflexivity.
Qed.

Lemma intersectionArea_le_r (a b : CornerBox) : intersectionArea a b <= area b.
Proof. rewrite intersectionArea_comm. apply intersectionArea_le_l. Qed.

Lemma unionArea_comm (a b : CornerBox) : unionArea a b == unionArea b a.
Proof. unfold unionArea. rewrite (intersectionArea_comm a b). ring. Qed.

Lemma unionArea_ge (a b : CornerBox) :
  intersectionArea a b <= unionArea a b /\ area a <= unionArea a b.
Proof.
  unfold unionArea.
  pose proof (intersectionArea_le_l a b). pose proof (intersectionArea_le_r a b).
  pose proof (area_nonneg a). split; lra.
Qed.

Lemma IoU_cases (a b : CornerBox) :
  (unionArea a b == 0 /\ IoU a b = 0)
  \/ (~ unionArea a b == 0 /\ IoU a b = intersectionArea a b / unionArea a b).
Proof.
  unfold IoU. destruct (Qeq_bool (unionArea a b) 0) eqn:E.
  - left. split; [apply Qeq_bool_iff; exact E|reflexivity].
  - right. split; [apply Qeq_bool_neq; exact E|reflexivity].
Qed.

Lemma IoU_zero_intersection (a b : CornerBox) :
  intersectionArea a b == 0 -> IoU a b == 0.
Proof.
  intros H. destruct (IoU_cases a b) as [[_ E]|[_ E]]; rewrite E; [reflexivity|].
  rewrite H. unfold Qdiv. ring.
Qed.

Lemma IoU_range (a b : CornerBox) : 0 <= IoU a b <= 1.
Proof.
  destruct (IoU_cases a b) as [[_ E]|[Hne E]]; rewrite E; [lra|].
  destruct (unionArea_ge a b) as [Hi Ha].
  pose proof (intersectionArea_nonneg a b) as H0.
  assert (Hpos : 0 < unionArea a b) by lra.
  split.
  - apply Qle_shift_div_l; [exact Hpos|]. lra.
  - apply Qle_shift_div_r; [exact Hpos|]. lra.
Qed.

Lemma IoU_comm (a b : CornerBox) : IoU a b == IoU b a.
Proof.
  unfold IoU.
  rewrite (Qeqb_comp _ _ (unionArea_comm a b) 0 0 (Qeq_refl 0)).
  destruct (Qeq_bool (unionArea b a) 0); [reflexivity|].
  rewrite (intersectionArea_comm a b), (unionArea_comm a b). reflexivity.
Qed.

Lemma area_degenerate (a : CornerBox) : degenerate a -> area a == 0.
Proof.
  unfold area. intros [H|H].
  - rewrite (span_degenerate _ _ H). ring.
  - rewrite (span_degenerate _ _ H). ring.
Qed.

Lemma IoU_zero_area (a b : CornerBox) : area a == 0 -> IoU a b == 0.
Proof.
  intros H. apply IoU_zero_intersection.
  pose proof (intersectionArea_le_l a b). pose proof (intersectionArea_nonneg a b).
  lra.
Qed.

Lemma intersectionArea_self (a : CornerBox) : intersectionArea a a == area a.
Proof.
  unfold intersectionArea, area.
  rewrite !Q.min_id, !Q.max_id. reflexivity.
Qed.

Lemma IoU_self (a : CornerBox) : 0 < area a -> IoU a a == 1.
Proof.
  intros Hpos. destruct (IoU_cases a a) as [[Hz _]|[Hne E]].
  - unfold unionArea in Hz. rewrite intersectionArea_self in Hz. lra.
  - rewrite E. unfold unionArea. rewrite intersectionArea_self.
    field. lra.
Qed.

Lemma intersectionArea_disjoint (a b : CornerBox) :
  disjoint a b -> intersectionArea a b == 0.
Proof.
  unfold disjoint, intersectionArea. intros [H|[H|[H|H]]].
  - rewrite (overlap_disjoint (top a) (bottom a) (top b) (bottom b)) by auto. ring.
  - rewrite (overlap_disjoint (top a) (bottom a) (top b) (bottom b)) by auto. ring.
  - rewrite (overlap_disjoint (left a) (right a) (left b) (right b)) by auto. ring.
  - rewrite (overlap_disjoint (left a) (right a) (left b) (right b)) by auto. ring.
Qed.

Lemma intersectionArea_contains (a b : CornerBox) :
  contains a b -> intersectionArea a b == area b.
Proof.
  unfold contains, intersectionArea, area. intros (Ht & Hb & Hl & Hr).
  rewrite (overlap_contained (top a) (bottom a) (top b) (bottom b)) by assumption.
  rewrite (overlap_contained (left a) (right a) (left b) (right b)) by assumption.
  reflexivity.
Qed.

Lemma IoU_contains_half (a b : CornerBox) :
  contains a b -> area a == 2 * area b -> 0 < area b -> IoU a b == 1 # 2.
Proof.
  intros Hc Ha Hpos.
  pose proof (intersectionArea_contains a b Hc) as Hi.
  destruct (IoU_cases a b) as [[Hz _]|[Hne E]].
  - unfold unionArea in Hz. rewrite Hi, Ha in Hz. lra.
  - rewrite E. unfold unionArea. rewrite Hi, Ha. field. lra.
Qed.

(** ** The selection order *)

Lemma precedes_iff (scores : list Q) (i j : nat) :
  precedes scores i j = true <->
  scoreAt scores j < scoreAt scores i
  \/ (scoreAt scores i == scoreAt scores j /\ (i <= j)%nat).
Proof.
  unfold precedes.
  destruct (Qcompare_spec (scoreAt scores i) (scoreAt scores j)) as [E|L|G].
  - rewrite Nat.leb_le. split; [intros H; right; auto|].
    intros [H|[_ H]]; [lra|exact H].
  - split; [discriminate|]. intros [H|[H _]]; lra.
  - split; [intros _; left; exact G|reflexivity].
Qed.

#[global] Instance scoreOrder_total scores : Total (scoreOrder scores).
Proof.
  intros i j. unfold scoreOrder. rewrite !precedes_iff.
  destruct (Qcompare_spec (scoreAt scores i) (scoreAt scores j)) as [E|L|G].
  - destruct (Nat.le_ge_cases i j); [left|right]; right; split;
      [exact E|assumption|symmetry; exact E|assumption].
  - right. left. exact L.
  - left. left. exact G.
Qed.

#[global] Instance scoreOrder_trans scores : Transitive (scoreOrder scores).
Proof.
  intros i j k. unfold scoreOrder. rewrite !precedes_iff.
  intros [H1|[E1 L1]] [H2|[E2 L2]].
  - left. lra.
  - left. lra.
  - left. lra.
  - right. split; [lra|lia].
Qed.

Lemma sortIndices_Permutation (scores : list Q) :
  sortIndices scores ≡ₚ seq 0 (length scores).
Proof. apply merge_sort_Permutation. Qed.

Lemma sortIndices_sorted (scores : list Q) :
  StronglySorted (scoreOrder scores) (sortIndices scores).
Proof. apply StronglySorted_merge_sort; apply _. Qed.

Lemma sortIndices_NoDup (scores : list Q) : NoDup (sortIndices scores).
Proof. rewrite sortIndices_Permutation. apply NoDup_seq. Qed.

Lemma sortIndices_length (scores : list Q) :
  length (sortIndices scores) = length scores.
Proof. rewrite sortIndices_Permutation. apply length_seq. Qed.

Lemma sortIndices_lt (scores : list Q) :
  Forall (fun i => (i < length scores)%nat) (sortIndices scores).
Proof.
  rewrite sortIndices_Permutation. apply Forall_seq. intros j Hj. lia.
Qed.

(** ** Sublists *)

Lemma filter_sublist {A} (f : A -> bool) (l : list A) :
  List.filter f l `sublist_of` l.
Proof.
  induction l as [|a l IH]; simpl; [constructor|].
  destruct (f a); constructor; exact IH.
Qed.

Lemma Forall_sublist {A} (P : A -> Prop) (l1 l2 : list A) :
  l1 `sublist_of` l2 -> Forall P l2 -> Forall P l1.
Proof.
  intros Hsub Hall. rewrite Forall_forall in *.
  intros a Ha. apply Hall. eapply elem_of_sublist; eauto.
Qed.

Lemma StronglySorted_sublist {A} (R : relation A) (l1 l2 : list A) :
  l1 `sublist_of` l2 -> StronglySorted R l2 -> StronglySorted R l1.
Proof.
  induction 1 as [|a l1 l2 Hsub IH|a l1 l2 Hsub IH]; intros Hs.
  - constructor.
  - apply StronglySorted_inv in Hs. destruct Hs as [Hs Hall].
    constructor; [apply IH; exact Hs|]. eapply Forall_sublist; eauto.
  - apply StronglySorted_inv in Hs. destruct Hs as [Hs _]. apply IH; exact Hs.
Qed.

Lemma StronglySorted_NoDup_strict {A} (R : relation A) (l : list A) :
  StronglySorted R l -> NoDup l ->
  StronglySorted (fun a b => R a b /\ a <> b) l.
Proof.
  induction 1 as [|a l Hs IH Hall]; intros Hnd; [constructor|].
  apply NoDup_cons in Hnd. destruct Hnd as [Hnotin Hnd].
  constructor; [apply IH; exact Hnd|].
  rewrite Forall_forall in *. intros b Hb. split; [apply Hall; exact Hb|].
  intros ->. contradiction.
Qed.

Lemma StronglySorted_impl {A} (R1 R2 : relation A) (l : list A) :
  (forall a b, R1 a b -> R2 a b) -> StronglySorted R1 l -> StronglySorted R2 l.
Proof.
  intros Himp. induction 1 as [|a l Hs IH Hall]; constructor; [exact IH|].
  eapply Forall_impl; [exact Hall|]. intros b. apply Himp.
Qed.

Lemma StronglySorted_Forall2 {A B} (R1 : relation A) (R2 : relation B)
    (P : A -> B -> Prop) (l1 : list A) (l2 : list B) :
  (forall a1 a2 b1 b2, P a1 b1 -> P a2 b2 -> R1 a1 a2 -> R2 b1 b2) ->
  Forall2 P l1 l2 -> StronglySorted R1 l1 -> StronglySorted R2 l2.
Proof.
  intros Hrel. induction 1 as [|a b l1 l2 Hab Hall IH]; intros Hs; [constructor|].
  apply StronglySorted_inv in Hs. destruct Hs as [Hs Hhd].
  constructor; [apply IH; exact Hs|].
  clear IH Hs. induction Hall as [|a' b' l1' l2' Hab' Hall' IH']; [constructor|].
  inversion Hhd; subst. constructor; [eapply Hrel; eauto|apply IH'; assumption].
Qed.

Lemma omap_sublist {A B} (f : A -> option B) (l1 l2 : list A) :
  l1 `sublist_of` l2 -> omap f l1 `sublist_of` omap f l2.
Proof.
  induction 1 as [|a l1 l2 Hsub IH|a l1 l2 Hsub IH]; simpl.
  - constructor.
  - destruct (f a); [constructor|]; exact IH.
  - destruct (f a); [constructor|]; exact IH.
Qed.

Lemma omap_lookup_seq {A} (pre l : list A) :
  omap (fun i => (pre ++ l) !! i) (seq (length pre) (length l)) = l.
Proof.
  revert pre. induction l as [|a l IH]; intros pre; [reflexivity|].
  simpl. rewrite list_lookup_middle by reflexivity. f_equal.
  specialize (IH (pre ++ [a])).
  rewrite <- (assoc_L (++)), length_app in IH. simpl in IH.
  rewrite Nat.add_1_r in IH. exact IH.
Qed.

Lemma omap_lookup_Forall2 {A} (l : list A) (idx : list nat) :
  Forall (fun i => (i < length l)%nat) idx ->
  Forall2 (fun i a => l !! i = Some a) idx (omap (fun i => l !! i) idx).
Proof.
  induction 1 as [|i idx Hi Hall IH]; simpl; [constructor|].
  destruct (lookup_lt_is_Some_2 l i Hi) as [a Ha]. rewrite Ha.
  constructor; assumption.
Qed.

Lemma lookup_map {A B} (f : A -> B) (l : list A) (i : nat) :
  map f l !! i = f <$> l !! i.
Proof.
  revert i. induction l as [|a l IH]; intros [|i]; simpl; auto.
Qed.

(** ** The suppression loop *)

Lemma survivors_sublist boxes iouThreshold i rest :
  survivors boxes iouThreshold i rest `sublist_of` rest.
Proof. apply filter_sublist. Qed.

Lemma nmsLoop_cons boxes iouThreshold i rest :
  nmsLoop boxes iouThreshold (i :: rest)
  = i :: nmsLoop boxes iouThreshold (survivors boxes iouThreshold i rest).
Proof. simp nmsLoop. reflexivity. Qed.

Lemma nmsLoop_no_suppression boxes iouThreshold remaining :
  (forall i j, suppresses boxes iouThreshold i j = false) ->
  nmsLoop boxes iouThreshold remaining = remaining.
Proof.
  intros Hno. induction remaining as [|i rest IH]; [reflexivity|].
  rewrite nmsLoop_cons. f_equal.
  assert (E : survivors boxes iouThreshold i rest = rest).
  { unfold survivors. clear IH. induction rest as [|j rest IH]; [reflexivity|].
    simpl. rewrite Hno. simpl. f_equal. exact IH. }
  rewrite E. exact IH.
Qed.

Lemma nmsLoop_sublist boxes iouThreshold remaining :
  nmsLoop boxes iouThreshold remaining `sublist_of` remaining.
Proof.
  funelim (nmsLoop boxes iouThreshold remaining); simp nmsLoop.
  - constructor.
  - constructor. etransitivity; [eassumption|]. apply survivors_sublist.
Qed.

Lemma keptIndices_sublist boxes scores iouThreshold :
  keptIndices boxes scores iouThreshold `sublist_of` sortIndices scores.
Proof. apply nmsLoop_sublist. Qed.

Lemma keptIndices_lt boxes scores iouThreshold :
  Forall (fun i => (i < length scores)%nat) (keptIndices boxes scores iouThreshold).
Proof.
  eapply Forall_sublist; [apply keptIndices_sublist|apply sortIndices_lt].
Qed.

Lemma keptIndices_NoDup boxes scores iouThreshold :
  NoDup (keptIndices boxes scores iouThreshold).
Proof.
  eapply sublist_NoDup; [apply sortIndices_NoDup|apply keptIndices_sublist].
Qed.

Lemma keptIndices_sorted boxes scores iouThreshold :
  StronglySorted (selectedBefore scores) (keptIndices boxes scores iouThreshold).
Proof.
  eapply StronglySorted_impl;
    [|apply StronglySorted_NoDup_strict;
       [eapply StronglySorted_sublist;
         [apply keptIndices_sublist|apply sortIndices_sorted]
       |apply keptIndices_NoDup]].
  intros i j [Hij Hne]. apply precedes_iff in Hij.
  destruct Hij as [H|[E L]]; [left; exact H|right].
  split; [exact E|lia].
Qed.

Lemma keptIndices_length_le boxes scores iouThreshold :
  (length (keptIndices boxes scores iouThreshold) <= length scores)%nat.
Proof.
  rewrite <- (sortIndices_length scores).
  apply sublist_length, keptIndices_sublist.
Qed.

Lemma scoreAt_map_score (boxes : list ScoredBox) (i : nat) (sb : ScoredBox) :
  boxes !! i = Some sb -> scoreAt (map score boxes) i = score sb.
Proof. intros H. unfold scoreAt. rewrite lookup_map, H. reflexivity. Qed.

Lemma suppress_Forall2 (boxes : list ScoredBox) (iouThreshold : Q) :
  Forall2 (fun i sb => boxes !! i = Some sb)
    (keptIndices (map box boxes) (map score boxes) iouThreshold)
    (suppress boxes iouThreshold).
Proof.
  unfold suppress. apply omap_lookup_Forall2.
  pose proof (keptIndices_lt (map box boxes) (map score boxes) iouThreshold) as H.
  rewrite length_map in H. exact H.
Qed.

Lemma suppress_submseteq (boxes : list ScoredBox) (iouThreshold : Q) :
  suppress boxes iouThreshold ⊆+ boxes.
Proof.
  unfold suppress.
  assert (Hp : omap (fun i => boxes !! i) (sortIndices (map score boxes)) ≡ₚ boxes).
  { rewrite sortIndices_Permutation, length_map.
    pose proof (omap_lookup_seq [] boxes) as Hall. simpl in Hall.
    rewrite Hall. reflexivity. }
  transitivity (omap (fun i => boxes !! i) (sortIndices (map score boxes))).
  - apply sublist_submseteq, omap_sublist, keptIndices_sublist.
  - rewrite Hp. reflexivity.
Qed.

(** C5: for every input and every threshold, the output of [suppress] is
    made of boxes of the input, each taken at most once, in selection
    order: by descending score, boxes of equal score in their input
    order. *)
Theorem suppress_ordered (boxes : list ScoredBox) (iouThreshold : Q) :
  let kept := keptIndices (map box boxes) (map score boxes) iouThreshold in
  Forall2 (fun i sb => boxes !! i = Some sb) kept (suppress boxes iouThreshold)
  /\ kept `sublist_of` sortIndices (map score boxes)
  /\ sortIndices (map score boxes) ≡ₚ seq 0 (length boxes)
  /\ StronglySorted (selectedBefore (map score boxes)) kept
  /\ suppress boxes iouThreshold ⊆+ boxes
  /\ StronglySorted (fun a b => score b <= score a) (suppress boxes iouThreshold).
Proof.
  intros kept.
  pose proof (suppress_Forall2 boxes iouThreshold) as HF.
  pose proof (keptIndices_sorted (map box boxes) (map score boxes) iouThreshold) as HS.
  split; [exact HF|].
  split; [apply keptIndices_sublist|].
  split; [rewrite sortIndices_Permutation, length_map; reflexivity|].
  split; [exact HS|].
  split; [apply suppress_submseteq|].
  eapply StronglySorted_Forall2; [|exact HF|exact HS].
  intros i j a b Hi Hj Hij.
  rewrite <- (scoreAt_map_score boxes i a Hi), <- (scoreAt_map_score boxes j b Hj).
  destruct Hij as [H|[E _]]; lra.
Qed.

(** ** Raising the IoU threshold *)

Lemma suppresses_antitone boxes (t1 t2 : Q) i j :
  t1 <= t2 -> suppresses boxes t2 i j = true -> suppresses boxes t1 i j = true.
Proof.
  unfold suppresses. intros Hle H.
  apply Qlt_bool_true in H. apply Qlt_bool_true. lra.
Qed.

Lemma survivors_monotone boxes (t1 t2 : Q) i rest :
  t1 <= t2 -> survivors boxes t1 i rest `sublist_of` survivors boxes t2 i rest.
Proof.
  intros Hle. apply filter_sublist_mono. intros j Hj.
  apply negb_true_iff in Hj. apply negb_true_iff.
  destruct (suppresses boxes t2 i j) eqn:E; [|reflexivity].
  apply (suppresses_antitone boxes t1 t2 i j Hle) in E. congruence.
Qed.

Lemma suppresses_above_one boxes (t : Q) i j :
  1 <= t -> suppresses boxes t i j = false.
Proof.
  intros Ht. unfold suppresses. apply Qlt_bool_false.
  pose proof (IoU_range (boxAt boxes i) (boxAt boxes j)). lra.
Qed.

Lemma suppress_length (boxes : list ScoredBox) (iouThreshold : Q) :
  length (suppress boxes iouThreshold)
  = length (keptIndices (map box boxes) (map score boxes) iouThreshold).
Proof.
  symmetry. eapply Forall2_length. apply suppress_Forall2.
Qed.

Lemma suppress_length_le (boxes : list ScoredBox) (iouThreshold : Q) :
  (length (suppress boxes iouThreshold) <= length boxes)%nat.
Proof.
  rewrite suppress_length. rewrite <- (length_map score boxes).
  apply keptIndices_length_le.
Qed.

Lemma suppress_keeps_all (boxes : list ScoredBox) (t : Q) :
  1 <= t -> length (suppress boxes t) = length boxes.
Proof.
  intros Ht. rewrite suppress_length. unfold keptIndices.
  rewrite nmsLoop_no_suppression
    by (intros i j; apply suppresses_above_one; exact Ht).
  rewrite sortIndices_length. apply length_map.
Qed.

(** C6, as stated, fails: with the four [crowdedBoxes], threshold 0.3
    keeps three boxes and threshold 0.5 keeps two.  At 0.3 the first box
    removes the second, so the third and fourth stay; at 0.5 the second
    stays and removes both. *)
Lemma suppress_count_not_monotone :
  0 <= 3 # 10 /\ 3 # 10 <= 1 # 2 /\ 1 # 2 <= 1
  /\ length (suppress crowdedBoxes (3 # 10)) = 3%nat
  /\ length (suppress crowdedBoxes (1 # 2)) = 2%nat
  /\ ~ (length (suppress crowdedBoxes (3 # 10))
        <= length (suppress crowdedBoxes (1 # 2)))%nat.
Proof.
  split; [lra|]. split; [lra|]. split; [lra|].
  split; [vm_compute; reflexivity|]. split; [vm_compute; reflexivity|].
  vm_compute. lia.
Qed.

(** C6, amended: for thresholds [t1 <= t2], each suppression step is
    monotone: the indices that a selected box leaves in [remaining] with
    [t1] are a subsequence of those it leaves with [t2], so it removes no
    more boxes with [t2]; and when [t2 >= 1] nothing is suppressed, the kept
    set is the whole input and is at least as large as with [t1]. *)
Theorem suppression_step_monotone (boxes : list ScoredBox) (t1 t2 : Q) :
  t1 <= t2 ->
  (forall i rest,
     survivors (map box boxes) t1 i rest `sublist_of` survivors (map box boxes) t2 i rest
     /\ (length (survivors (map box boxes) t1 i rest)
         <= length (survivors (map box boxes) t2 i rest))%nat)
  /\ (1 <= t2 ->
      length (suppress boxes t2) = length boxes
      /\ (length (suppress boxes t1) <= length (suppress boxes t2))%nat).
Proof.
  intros Hle. split.
  - intros i rest.
    pose proof (survivors_monotone (map box boxes) t1 t2 i rest Hle) as Hsub.
    split; [exact Hsub|apply sublist_length; exact Hsub].
  - intros Hone. rewrite (suppress_keeps_all boxes t2 Hone).
    split; [reflexivity|apply suppress_length_le].
Qed.

Lemma suppression_step_monotone_witness :
  3 # 10 <= 1
  /\ survivors (map box crowdedBoxes) (3 # 10) 0 [1; 2; 3]%nat
       `sublist_of` survivors (map box crowdedBoxes) 1 0 [1; 2; 3]%nat
  /\ (length (suppress crowdedBoxes (3 # 10)) <= length (suppress crowdedBoxes 1))%nat.
Proof.
  assert (H : 3 # 10 <= 1) by lra.
  assert (H1 : 1 <= 1) by lra.
  destruct (suppression_step_monotone crowdedBoxes (3 # 10) 1 H) as [Hstep Hall].
  split; [exact H|].
  split; [exact (proj1 (Hstep 0%nat [1; 2; 3]%nat))|exact (proj2 (Hall H1))].
Defined.

(** ** [predict] against the pipeline in the words of the spec *)

Lemma zip_with_map_same {A B C D} (f : B -> C -> D) (g : A -> B) (h : A -> C)
    (l : list A) :
  zip_with f (map g l) (map h l) = map (fun a => f (g a) (h a)) l.
Proof. induction l as [|a l IH]; simpl; [reflexivity|]. f_equal. exact IH. Qed.

Lemma map_box_scaleToModel s (boxes : list ScoredBox) :
  map box (scaleToModel s boxes) = mulImageDims (maxPix s) (maxPix s) (map box boxes).
Proof.
  unfold scaleToModel, mulImageDims. rewrite !List.map_map. reflexivity.
Qed.

Lemma map_score_scaleToModel s (boxes : list ScoredBox) :
  map score (scaleToModel s boxes) = map score boxes.
Proof. unfold scaleToModel. rewrite List.map_map. reflexivity. Qed.

Lemma map_classIndex_scaleToModel s (boxes : list ScoredBox) :
  map classIndex (scaleToModel s boxes) = map classIndex boxes.
Proof. unfold scaleToModel. rewrite List.map_map. reflexivity. Qed.

Lemma omap_length_le {A B} (f : A -> option B) (l : list A) :
  (length (omap f l) <= length l)%nat.
Proof.
  induction l as [|a l IH]; csimpl; [lia|]. destruct (f a); csimpl; lia.
Qed.

Lemma map_boxAt_kept (boxes : list ScoredBox) (idx : list nat) :
  Forall2 (fun i sb => boxes !! i = Some sb) idx (omap (fun i => boxes !! i) idx) ->
  map (boxAt (map box boxes)) idx = map box (omap (fun i => boxes !! i) idx)
  /\ map (scoreAt (map score boxes)) idx = map score (omap (fun i => boxes !! i) idx)
  /\ gather (map classIndex boxes) idx
     = Ok (map classIndex (omap (fun i => boxes !! i) idx)).
Proof.
  induction idx as [|i idx IH]; csimpl; [auto|].
  destruct (boxes !! i) as [sb|] eqn:E.
  - intros HF. inversion HF as [|? ? ? ? _ HF']; subst.
    destruct (IH HF') as (IHb & IHs & IHc). csimpl.
    rewrite IHb, IHs, IHc. unfold boxAt, scoreAt, readOr.
    rewrite !lookup_map, E. simpl. auto.
  - intros HF. apply Forall2_length in HF. csimpl in HF.
    pose proof (omap_length_le (fun i => boxes !! i) idx). lia.
Qed.

Lemma nonMaxSuppression_suppress (boxes : list ScoredBox) (iouThreshold : Q) :
  nonMaxSuppression (map box boxes) (map score boxes) iouThreshold
  = (keptIndices (map box boxes) (map score boxes) iouThreshold,
     map box (suppress boxes iouThreshold),
     map score (suppress boxes iouThreshold))
  /\ gather (map classIndex boxes)
       (keptIndices (map box boxes) (map score boxes) iouThreshold)
     = Ok (map classIndex (suppress boxes iouThreshold)).
Proof.
  destruct (map_boxAt_kept boxes _ (suppress_Forall2 boxes iouThreshold))
    as (Hb & Hs & Hc).
  unfold nonMaxSuppression, suppress. rewrite Hb, Hs. auto.
Qed.

Lemma detect_at s classNames (pre : list ScoredBox) (sb : ScoredBox)
    (post : list ScoredBox) (results : list IDetectedObject) :
  detect s classNames (map score (pre ++ sb :: post)) (map box (pre ++ sb :: post))
    results (classIndex sb) (length pre)
  = Ok (if Qle_bool (classProbThreshold s) (score sb)
        then results ++ [detectionOf s classNames sb]
        else results).
Proof.
  unfold detect, readOr.
  rewrite !lookup_map, list_lookup_middle by reflexivity. simpl.
  unfold Qlt_bool.
  destruct (Qle_bool (classProbThreshold s) (score sb)); reflexivity.
Qed.

Lemma forEach_detect s classNames (kept pre : list ScoredBox)
    (results : list IDetectedObject) :
  forEach (detect s classNames (map score (pre ++ kept)) (map box (pre ++ kept)))
    (length pre) (map classIndex kept) results
  = Ok (results ++ map (detectionOf s classNames) (displayed s kept)).
Proof.
  revert pre results. induction kept as [|sb kept IH]; intros pre results.
  - simpl. rewrite app_nil_r. reflexivity.
  - simpl forEach. rewrite detect_at. simpl.
    specialize (IH (pre ++ [sb])).
    rewrite <- (assoc_L (++)), length_app, Nat.add_1_r in IH. simpl in IH.
    rewrite IH. unfold displayed. simpl.
    destruct (Qle_bool (classProbThreshold s) (score sb)); simpl.
    + rewrite <- (assoc_L (++)). reflexivity.
    + reflexivity.
Qed.

Lemma predictFiltered_Some s classNames (boxes : list ScoredBox) :
  predictFiltered s classNames
    (Some (map box boxes, map score boxes, map classIndex boxes))
  = Ok (map (detectionOf s classNames)
          (displayed s (suppress (scaleToModel s boxes) (iouThreshold s)))).
Proof.
  unfold predictFiltered.
  rewrite <- map_box_scaleToModel, <- (map_score_scaleToModel s boxes),
    <- (map_classIndex_scaleToModel s boxes).
  destruct (nonMaxSuppression_suppress (scaleToModel s boxes) (iouThreshold s))
    as [Hnms Hgather].
  rewrite Hnms, Hgather. simpl.
  apply (forEach_detect s classNames _ [] []).
Qed.

Lemma suppress_nil (iouThreshold : Q) : suppress [] iouThreshold = [].
Proof. reflexivity. Qed.

Lemma filterBoxes_decoded (decoded : list DecodedBox.t) (threshold : Q) :
  filterBoxes
    (boxesToCorners
       (map (fun d => (DecodedBox.centerX d, DecodedBox.centerY d)) decoded)
       (map (fun d => (DecodedBox.width d, DecodedBox.height d)) decoded))
    (map DecodedBox.confidence decoded) (map DecodedBox.classProbs decoded) threshold
  = match ScoreFilter.filter (withCorners decoded) threshold with
    | [] => None
    | kept => Some (map box kept, map score kept, map classIndex kept)
    end.
Proof.
  unfold filterBoxes, ScoreFilter.filter.
  assert (E : map scorePair
                (candidates
                   (boxesToCorners
                      (map (fun d => (DecodedBox.centerX d, DecodedBox.centerY d)) decoded)
                      (map (fun d => (DecodedBox.width d, DecodedBox.height d)) decoded))
                   (map DecodedBox.confidence decoded)
                   (map DecodedBox.classProbs decoded))
              = map scorePair (withCorners decoded)).
  { unfold candidates, boxesToCorners, withCorners.
    rewrite !zip_with_map_same, !List.map_map.
    apply List.map_ext. intros d. reflexivity. }
  rewrite E. reflexivity.
Qed.

(** [predict] is the pipeline of the spec: decode, corners, coarse filter,
    scaling to pixels, suppression, display filter, labelling. *)
Lemma predict_pipeline `{TfMath} s classNames modelOutput decoded :
  decode modelOutput (yoloModelAnchors s) (yoloModelClassCount s) = Ok decoded ->
  predict s classNames modelOutput
  = Ok (map (detectionOf s classNames)
          (displayed s
             (suppress
                (scaleToModel s
                   (ScoreFilter.filter (withCorners decoded) preFilterThreshold))
                (iouThreshold s)))).
Proof.
  intros Hdec. unfold predict, yoloHead. rewrite Hdec. simpl.
  rewrite filterBoxes_decoded.
  destruct (ScoreFilter.filter (withCorners decoded) preFilterThreshold)
    as [|sb kept] eqn:E.
  - reflexivity.
  - apply predictFiltered_Some.
Qed.



Lemma scaleToModel_score s (boxes : list ScoredBox) (P : Q -> Prop) :
  Forall (fun sb => P (score sb)) boxes ->
  Forall (fun sb => P (score sb)) (scaleToModel s boxes).
Proof.
  unfold scaleToModel. intros Hall.
  induction Hall as [|sb l Hsb Hall IH]; simpl; constructor; assumption.
Qed.

Lemma scoreFilter_passes boxes minScore :
  Forall (fun sb => minScore <= score sb) (ScoreFilter.filter boxes minScore).
Proof.
  apply Forall_forall. intros sb Hsb.
  apply elem_of_scoreFilter in Hsb. tauto.
Qed.

Lemma elem_of_displayed s kept sb :
  sb ∈ displayed s kept <-> sb ∈ kept /\ ~ score sb < classProbThreshold s.
Proof.
  unfold displayed.
  rewrite !list_elem_of_In, List.filter_In, Qle_bool_iff.
  split; intros [Hin Hle]; (split; [exact Hin|]); lra.
Qed.

(** C4: [predict] uses two thresholds at two places: the coarse constant
    0.01 in the filter before suppression, and the configured
    [classProbThreshold] after it.  Every box that reaches suppression has
    passed the coarse one, and a box kept by suppression is left out of the
    detections exactly when its score is below [classProbThreshold]. *)
Theorem predict_two_thresholds `{TfMath} (s : AppSettings)
    (classNames : list string) (modelOutput : RawOutput)
    (decoded : list DecodedBox.t) :
  decode modelOutput (yoloModelAnchors s) (yoloModelClassCount s) = Ok decoded ->
  let candidatesKept := ScoreFilter.filter (withCorners decoded) preFilterThreshold in
  let kept := suppress (scaleToModel s candidatesKept) (iouThreshold s) in
  Forall (fun sb => preFilterThreshold <= score sb) kept
  /\ predict s classNames modelOutput
     = Ok (map (detectionOf s classNames) (displayed s kept))
  /\ (forall sb, sb ∈ kept ->
        (sb ∈ displayed s kept <-> ~ score sb < classProbThreshold s))
  /\ length kept
     = (length (displayed s kept)
        + length (List.filter
                    (fun sb => Qlt_bool (score sb) (classProbThreshold s)) kept))%nat.
Proof.
  intros Hdec candidatesKept kept.
  split.
  { apply Forall_forall. intros sb Hsb.
    pose proof (elem_of_submseteq _ _ _ Hsb (suppress_submseteq _ _)) as Hin.
    pose proof (scaleToModel_score s candidatesKept
                  (fun q => preFilterThreshold <= q)
                  (scoreFilter_passes _ _)) as Hall.
    rewrite Forall_forall in Hall. apply Hall. exact Hin. }
  split; [apply predict_pipeline; exact Hdec|].
  split.
  { intros sb Hsb. rewrite elem_of_displayed. tauto. }
  unfold displayed. symmetry. apply List.filter_length.
Qed.

Lemma predict_two_thresholds_witness :
  exists decoded,
    decode (H := rationalTf) demoOutput (yoloModelAnchors demoSettings)
      (yoloModelClassCount demoSettings) = Ok decoded
    /\ predict (H := rationalTf) demoSettings demoClassNames demoOutput
       = Ok (map (detectionOf demoSettings demoClassNames)
               (displayed demoSettings
                  (suppress
                     (scaleToModel demoSettings
                        (ScoreFilter.filter (withCorners decoded) preFilterThreshold))
                     (iouThreshold demoSettings)))).
Proof.
  set (decoded := match decode (H := rationalTf) demoOutput
                          (yoloModelAnchors demoSettings)
                          (yoloModelClassCount demoSettings) with
                  | Ok d => d
                  | Err _ => []
                  end).
  assert (Hdec : decode (H := rationalTf) demoOutput (yoloModelAnchors demoSettings)
                   (yoloModelClassCount demoSettings) = Ok decoded)
    by (vm_compute; reflexivity).
  exists decoded. split; [exact Hdec|].
  exact (proj1 (proj2 (predict_two_thresholds (H := rationalTf) demoSettings
                         demoClassNames demoOutput decoded Hdec))).
Defined.

(** C8: IoU is intersection area over union area, with the intersection
    area given by the clamped overlaps; it is defined for all boxes, an
    empty union giving 0, and lies in [0, 1]; a zero-area or malformed box
    has IoU 0 with every box; a box of positive area has IoU 1 with itself,
    disjoint boxes have IoU 0, and a box containing one of half its area
    has IoU 1/2 with it. *)
Theorem IoU_correct (a b : CornerBox) :
  intersectionArea a b
  = Qmax 0 (Qmin (bottom a) (bottom b) - Qmax (top a) (top b))
    * Qmax 0 (Qmin (right a) (right b) - Qmax (left a) (left b))
  /\ (~ area a + area b - intersectionArea a b == 0 ->
      IoU a b == intersectionArea a b / (area a + area b - intersectionArea a b))
  /\ (area a + area b - intersectionArea a b == 0 -> IoU a b == 0)
  /\ 0 <= IoU a b <= 1
  /\ (area a == 0 \/ bottom a < top a \/ right a < left a ->
      IoU a b == 0 /\ IoU b a == 0)
  /\ (0 < area a -> IoU a a == 1)
  /\ (disjoint a b -> IoU a b == 0)
  /\ (contains a b -> area a == 2 * area b -> 0 < area b -> IoU a b == 1 # 2).
Proof.
  split; [reflexivity|].
  split.
  { intros Hne. destruct (IoU_cases a b) as [[Hz _]|[_ E]].
    - contradiction.
    - rewrite E. reflexivity. }
  split.
  { intros Hz. destruct (IoU_cases a b) as [[_ E]|[Hne _]].
    - rewrite E. reflexivity.
    - contradiction. }
  split; [apply IoU_range|].
  split.
  { intros Hdeg.
    assert (Hzero : area a == 0).
    { destruct Hdeg as [Hz|[Ht|Hl]]; [exact Hz| |];
        apply area_degenerate; [left|right]; lra. }
    split; [|rewrite IoU_comm]; apply IoU_zero_area; exact Hzero. }
  split; [apply IoU_self|].
  split.
  { intros Hd. apply IoU_zero_intersection, intersectionArea_disjoint. exact Hd. }
  apply IoU_contains_half.
Qed.

Lemma IoU_correct_witness :
  IoU unitBox unitBox == 1
  /\ IoU unitBox farBox == 0
  /\ IoU unitBox halfBox == 1 # 2
  /\ IoU malformedBox unitBox == 0.
Proof.
  split.
  { destruct (IoU_correct unitBox unitBox) as (_ & _ & _ & _ & _ & Hself & _).
    apply Hself. vm_compute. reflexivity. }
  split.
  { destruct (IoU_correct unitBox farBox) as (_ & _ & _ & _ & _ & _ & Hdisj & _).
    apply Hdisj. left. vm_compute. discriminate. }
  split.
  { destruct (IoU_correct unitBox halfBox) as (_ & _ & _ & _ & _ & _ & _ & Hhalf).
    apply Hhalf.
    - repeat split; vm_compute; discriminate.
    - vm_compute. reflexivity.
    - vm_compute. reflexivity. }
  destruct (IoU_correct malformedBox unitBox) as (_ & _ & _ & _ & Hdeg & _).
  apply Hdeg. right. left. vm_compute. reflexivity.
Defined.

(** ** GridDecoder *)




(** A tensor whose shape disagrees with the declared classes or anchors is
    refused. *)
Lemma decode_shape_error `{TfMath} (raw : RawOutput) (anchors : list Anchor)
    (numClasses : nat) :
  depth raw <> (5 + numClasses)%nat \/ length anchors <> numAnchors raw ->
  decode raw anchors numClasses = Err ShapeError.
Proof.
  intros Hbad. unfold decode.
  destruct (Nat.eqb_spec (depth raw) (5 + numClasses)) as [Hd|Hd];
  destruct (Nat.eqb_spec (length anchors) (numAnchors raw)) as [Ha|Ha];
    simpl; try reflexivity.
  destruct Hbad; contradiction.
Qed.



(** ** The boxes of the pipeline meet the frame

    The overlap condition under which clamping keeps the invariant
    ([clampBox_wellFormed_iff]) is met by every box
    that [predict] clamps, as soon as [sigmoid] has its values in [0, 1],
    [exp] is non-negative and so are the anchors: a decoded centre lies in
    the image, so the box around it cannot lie outside of the frame. *)

Lemma Qnat_nonneg (n : nat) : 0 <= Qnat n.
Proof.
  unfold Qnat, Qle. simpl. lia.
Qed.

Lemma Qnat_succ_le (n m : nat) : (n < m)%nat -> Qnat n + 1 <= Qnat m.
Proof.
  intros Hlt. unfold Qnat, Qle, Qplus. simpl. lia.
Qed.

Lemma cell_fraction_range (v : Q) (n m : nat) :
  0 <= v <= 1 -> (n < m)%nat -> 0 <= (v + Qnat n) / Qnat m <= 1.
Proof.
  intros [Hv0 Hv1] Hlt.
  pose proof (Qnat_nonneg n) as Hn. pose proof (Qnat_succ_le n m Hlt) as Hm.
  assert (Hpos : 0 < Qnat m) by lra.
  split.
  - apply Qle_shift_div_l; [exact Hpos|]. lra.
  - apply Qle_shift_div_r; [exact Hpos|]. lra.
Qed.

Lemma scaled_size_nonneg (p e : Q) (m : nat) :
  0 <= p -> 0 <= e -> 0 <= p * e / Qnat m.
Proof.
  intros Hp He. pose proof (Qnat_nonneg m) as Hm.
  unfold Qdiv. apply Qmult_le_0_compat.
  - apply Qmult_le_0_compat; assumption.
  - destruct (Qle_lt_or_eq _ _ Hm) as [Hpos|Hz].
    + apply Qlt_le_weak, Qinv_lt_0_compat. exact Hpos.
    + rewrite <- Hz. vm_compute. discriminate.
Qed.

Lemma half_nonneg (v : Q) : 0 <= v -> 0 <= v / 2.
Proof. intros Hv. apply Qle_shift_div_l; lra. Qed.

Lemma centred_interval_meets_frame (centre half m : Q) :
  0 <= m -> 0 <= centre <= 1 -> 0 <= half ->
  (centre - half) * m <= (centre + half) * m
  /\ 0 <= (centre + half) * m
  /\ (centre - half) * m <= m.
Proof.
  intros Hm [Hc0 Hc1] Hh.
  pose proof (Qmult_le_0_compat _ _ Hh Hm) as Hhm.
  pose proof (Qmult_le_0_compat _ _ Hc0 Hm) as Hcm.
  assert (Hc1m : 0 <= (1 - centre) * m) by (apply Qmult_le_0_compat; lra).
  repeat split; lra.
Qed.

(** A box around a centre of the image, scaled to pixels, meets the frame. *)
Lemma toCorners_scaled_meets_frame (d : DecodedBox.t) (m : Q) :
  0 <= m ->
  0 <= DecodedBox.centerX d <= 1 -> 0 <= DecodedBox.centerY d <= 1 ->
  0 <= DecodedBox.width d -> 0 <= DecodedBox.height d ->
  let c := toCorners d in
  wellFormed (clampBox m
    (mkCornerBox (top c * m) (left c * m) (bottom c * m) (right c * m))).
Proof.
  intros Hm Hx Hy Hw Hh c.
  destruct (centred_interval_meets_frame _ _ m Hm Hx (half_nonneg _ Hw))
    as (Hx1 & Hx2 & Hx3).
  destruct (centred_interval_meets_frame _ _ m Hm Hy (half_nonneg _ Hh))
    as (Hy1 & Hy2 & Hy3).
  apply clampBox_wellFormed_iff. unfold wellFormed, c, toCorners; simpl.
  repeat split; assumption.
Qed.

Section SquashedPipeline.
Context `{TfMath}.
Hypothesis sigmoid_range : forall v, 0 <= sigmoid v <= 1.
Hypothesis exp_nonneg : forall v, 0 <= exp v.

Lemma decodeBox_in_image raw anchors numClasses row col a :
  Forall (fun an => 0 <= anchorWidth an /\ 0 <= anchorHeight an) anchors ->
  (row < gridHeight raw)%nat -> (col < gridWidth raw)%nat ->
  let d := decodeBox raw anchors numClasses row col a in
  0 <= DecodedBox.centerX d <= 1 /\ 0 <= DecodedBox.centerY d <= 1
  /\ 0 <= DecodedBox.width d /\ 0 <= DecodedBox.height d.
Proof.
  intros Hanchors Hrow Hcol d. unfold d, decodeBox; simpl.
  assert (Han : 0 <= anchorWidth (default (mkAnchor 0 0) (anchors !! a))
                /\ 0 <= anchorHeight (default (mkAnchor 0 0) (anchors !! a))).
  { destruct (anchors !! a) as [an|] eqn:E; simpl; [|split; lra].
    rewrite Forall_forall in Hanchors. apply Hanchors.
    eapply list_elem_of_lookup_2. exact E. }
  destruct Han as [Haw Hah].
  split; [apply cell_fraction_range; auto|].
  split; [apply cell_fraction_range; auto|].
  split; apply scaled_size_nonneg; auto.
Qed.

Lemma decoded_in_image raw anchors numClasses decoded d :
  Forall (fun an => 0 <= anchorWidth an /\ 0 <= anchorHeight an) anchors ->
  decode raw anchors numClasses = Ok decoded ->
  d ∈ decoded ->
  0 <= DecodedBox.centerX d <= 1 /\ 0 <= DecodedBox.centerY d <= 1
  /\ 0 <= DecodedBox.width d /\ 0 <= DecodedBox.height d.
Proof.
  intros Hanchors Hdec Hin. unfold decode in Hdec.
  destruct (_ && _); [|discriminate]. injection Hdec as <-.
  apply list_elem_of_In, in_flat_map in Hin. destruct Hin as (row & Hrow & Hin).
  apply in_flat_map in Hin. destruct Hin as (col & Hcol & Hin).
  apply in_map_iff in Hin. destruct Hin as (a & <- & _).
  apply in_seq in Hrow. apply in_seq in Hcol.
  apply decodeBox_in_image; [exact Hanchors|lia|lia].
Qed.

(** Every Detection of [predict] has a rect of non-negative width and
    height: its clamped box keeps [top <= bottom] and [left <= right]. *)
Lemma predict_rect_nonneg s classNames modelOutput dets d :
  0 <= maxPix s ->
  Forall (fun an => 0 <= anchorWidth an /\ 0 <= anchorHeight an)
    (yoloModelAnchors s) ->
  predict s classNames modelOutput = Ok dets ->
  d ∈ dets ->
  0 <= width (rect d) /\ 0 <= height (rect d).
Proof.
  intros Hm Hanchors Hrun Hin.
  destruct (decode modelOutput (yoloModelAnchors s) (yoloModelClassCount s))
    as [decoded|e] eqn:Hdec.
  2:{ unfold predict, yoloHead in Hrun. rewrite Hdec in Hrun. discriminate. }
  rewrite (predict_pipeline s classNames modelOutput decoded Hdec) in Hrun.
  injection Hrun as <-.
  apply list_elem_of_In, in_map_iff in Hin. destruct Hin as (sb & <- & Hsb).
  apply list_elem_of_In, elem_of_displayed in Hsb. destruct Hsb as [Hsb _].
  pose proof (elem_of_submseteq _ _ _ Hsb (suppress_submseteq _ _)) as Hscaled.
  apply list_elem_of_In, in_map_iff in Hscaled.
  destruct Hscaled as (sb0 & <- & Hsb0).
  apply list_elem_of_In, elem_of_scoreFilter in Hsb0. destruct Hsb0 as [Hsb0 _].
  apply list_elem_of_In in Hsb0. unfold withCorners in Hsb0.
  rewrite List.map_map in Hsb0. apply in_map_iff in Hsb0.
  destruct Hsb0 as (d0 & <- & Hd0). apply list_elem_of_In in Hd0.
  destruct (decoded_in_image _ _ _ _ _ Hanchors Hdec Hd0) as (Hx & Hy & Hw & Hh).
  pose proof (toCorners_scaled_meets_frame d0 (maxPix s) Hm Hx Hy Hw Hh) as [Ht Hl].
  simpl in *. split; lra.
Qed.

End SquashedPipeline.

(** * The canvases *)

(** ** Assigning a canvas dimension *)

Lemma Qfloor_nonneg (v : Q) : 0 <= v -> (0 <= Qfloor v)%Z.
Proof.
  intros Hv. change 0%Z with (Qfloor 0). apply Qfloor_resp_le. exact Hv.
Qed.

Lemma Qfloor_lt_bound (v : Q) (n : Z) : v < inject_Z n -> (Qfloor v < n)%Z.
Proof.
  intros Hv. pose proof (Qfloor_le v) as Hle.
  assert (H : inject_Z (Qfloor v) < inject_Z n) by lra.
  rewrite <- Zlt_Qlt in H. exact H.
Qed.

Lemma toUnsignedLong_floor (v : Q) :
  0 <= v -> v < 4294967296 -> toUnsignedLong v = Qfloor v.
Proof.
  intros Hv Hlt. pose proof (Qfloor_nonneg v Hv) as H0.
  pose proof (Qfloor_lt_bound v 4294967296 Hlt) as H1.
  unfold toUnsignedLong. destruct v as [n d]. unfold Qfloor in *. simpl.
  assert (Hn : (0 <= n)%Z).
  { unfold Qle in Hv. simpl in Hv. lia. }
  rewrite Z.quot_div_nonneg by lia.
  apply Z.mod_small. change (2 ^ 32)%Z with 4294967296%Z. lia.
Qed.

(** Within 0 .. 2^31 - 1 the canvas keeps the integer part of what it is
    given. *)
Lemma reflectDimension_floor (defaultValue : Z) (v : Q) :
  0 <= v -> v < 2147483648 -> reflectDimension defaultValue v = Qfloor v.
Proof.
  intros Hv Hlt. unfold reflectDimension.
  rewrite toUnsignedLong_floor by lra.
  pose proof (Qfloor_lt_bound v 2147483648 Hlt) as H1.
  destruct (Z.leb_spec (Qfloor v) 2147483647); [reflexivity|lia].
Qed.

Lemma reflectDimension_range (defaultValue : Z) (v : Q) :
  (0 <= defaultValue <= 2147483647)%Z ->
  (0 <= reflectDimension defaultValue v <= 2147483647)%Z.
Proof.
  intros Hd. unfold reflectDimension.
  assert (H : (0 <= toUnsignedLong v)%Z).
  { unfold toUnsignedLong. apply Z.mod_pos_bound. reflexivity. }
  destruct (Z.leb_spec (toUnsignedLong v) 2147483647); lia.
Qed.

Lemma reflectDimension_integer (defaultValue n : Z) :
  (0 <= n <= 2147483647)%Z -> reflectDimension defaultValue (inject_Z n) = n.
Proof.
  intros Hn. rewrite reflectDimension_floor.
  - apply Qfloor_Z.
  - change 0 with (inject_Z 0). rewrite <- Zle_Qle. lia.
  - change 2147483648 with (inject_Z 2147483648). rewrite <- Zlt_Qlt. lia.
Qed.

Lemma sizePassiveCanvas_range (maxPix : Q) (img : HTMLImageElement) :
  (0 <= Canvas.width (sizePassiveCanvas maxPix img) <= 2147483647)%Z
  /\ (0 <= Canvas.height (sizePassiveCanvas maxPix img) <= 2147483647)%Z.
Proof.
  unfold sizePassiveCanvas. destruct (_ <=? _)%Z; simpl; split;
    apply reflectDimension_range;
    unfold defaultCanvasWidth, defaultCanvasHeight; lia.
Qed.

Lemma sizeActiveCanvas_same (maxPix : Q) (img : HTMLImageElement) :
  sizeActiveCanvas (sizePassiveCanvas maxPix img) = sizePassiveCanvas maxPix img.
Proof.
  destruct (sizePassiveCanvas_range maxPix img) as [Hw Hh].
  unfold sizeActiveCanvas.
  rewrite (reflectDimension_integer _ _ Hw), (reflectDimension_integer _ _ Hh).
  destruct (sizePassiveCanvas maxPix img). reflexivity.
Qed.

(** X1: whatever the image and [maxPix] are, both sides of the passive
    canvas end up within 0 .. 2^31 - 1, and the active canvas, assigned from
    it, gets exactly the same size. *)
Theorem activeCanvas_matches_passive (maxPix : Q) (img : HTMLImageElement) :
  let b := layoutBoard maxPix img in
  activeCanvas b = passiveCanvas b
  /\ (0 <= Canvas.width (passiveCanvas b) <= 2147483647)%Z
  /\ (0 <= Canvas.height (passiveCanvas b) <= 2147483647)%Z.
Proof.
  intros b. split; [apply sizeActiveCanvas_same|].
  apply sizePassiveCanvas_range.
Qed.

(** ** Scaling the image *)

Lemma aspectRatio_pos (img : HTMLImageElement) :
  (0 < naturalWidth img)%Z -> (0 < naturalHeight img)%Z -> 0 < aspectRatio img.
Proof.
  intros Hw Hh. unfold aspectRatio.
  apply Qlt_shift_div_l.
  - change 0 with (inject_Z 0). rewrite <- Zlt_Qlt. exact Hh.
  - rewrite Qmult_0_l. change 0 with (inject_Z 0). rewrite <- Zlt_Qlt. exact Hw.
Qed.

Lemma aspectRatio_landscape (img : HTMLImageElement) :
  (0 < naturalHeight img)%Z -> (naturalHeight img <= naturalWidth img)%Z ->
  1 <= aspectRatio img.
Proof.
  intros Hh Hle. unfold aspectRatio.
  apply Qle_shift_div_l.
  - change 0 with (inject_Z 0). rewrite <- Zlt_Qlt. exact Hh.
  - rewrite Qmult_1_l. rewrite <- Zle_Qle. exact Hle.
Qed.

Lemma aspectRatio_portrait (img : HTMLImageElement) :
  (0 < naturalHeight img)%Z -> (naturalWidth img < naturalHeight img)%Z ->
  aspectRatio img < 1.
Proof.
  intros Hh Hlt. unfold aspectRatio.
  apply Qlt_shift_div_r.
  - change 0 with (inject_Z 0). rewrite <- Zlt_Qlt. exact Hh.
  - rewrite Qmult_1_l. rewrite <- Zlt_Qlt. exact Hlt.
Qed.

Lemma scaled_up_landscape (maxPix ratio : Q) :
  0 <= maxPix -> 1 <= ratio -> maxPix <= maxPix * ratio.
Proof.
  intros Hm Hr.
  assert (H : 0 <= maxPix * (ratio - 1)) by (apply Qmult_le_0_compat; lra).
  lra.
Qed.

Lemma scaled_up_portrait (maxPix ratio : Q) :
  0 <= maxPix -> 0 < ratio -> ratio < 1 -> maxPix <= maxPix / ratio.
Proof.
  intros Hm Hpos Hr. apply Qle_shift_div_l; [exact Hpos|].
  assert (H : 0 <= maxPix * (1 - ratio)) by (apply Qmult_le_0_compat; lra).
  lra.
Qed.

Lemma sizePassiveCanvas_landscape (maxPix : Q) (m : Z) (img : HTMLImageElement) :
  scalable maxPix m img ->
  (naturalHeight img <= naturalWidth img)%Z ->
  Canvas.height (sizePassiveCanvas maxPix img) = m
  /\ Canvas.width (sizePassiveCanvas maxPix img) = Qfloor (maxPix * aspectRatio img)
  /\ (m <= Canvas.width (sizePassiveCanvas maxPix img))%Z.
Proof.
  intros (Hw & Hh & Hm & Hm0 & Hbw & Hbh) Hle.
  assert (Hmq : 0 <= maxPix).
  { rewrite Hm. change 0 with (inject_Z 0). rewrite <- Zle_Qle. exact Hm0. }
  pose proof (aspectRatio_landscape img Hh Hle) as Har.
  pose proof (scaled_up_landscape maxPix _ Hmq Har) as Hup.
  unfold sizePassiveCanvas. rewrite (proj2 (Z.leb_le _ _) Hle). simpl.
  rewrite !reflectDimension_floor by lra.
  assert (Hfl : Qfloor maxPix = m) by (rewrite Hm; apply Qfloor_Z).
  split; [exact Hfl|]. split; [reflexivity|].
  rewrite <- Hfl. apply Qfloor_resp_le. exact Hup.
Qed.

Lemma sizePassiveCanvas_portrait (maxPix : Q) (m : Z) (img : HTMLImageElement) :
  scalable maxPix m img ->
  (naturalWidth img < naturalHeight img)%Z ->
  Canvas.width (sizePassiveCanvas maxPix img) = m
  /\ Canvas.height (sizePassiveCanvas maxPix img) = Qfloor (maxPix / aspectRatio img)
  /\ (m <= Canvas.height (sizePassiveCanvas maxPix img))%Z.
Proof.
  intros (Hw & Hh & Hm & Hm0 & Hbw & Hbh) Hlt.
  assert (Hmq : 0 <= maxPix).
  { rewrite Hm. change 0 with (inject_Z 0). rewrite <- Zle_Qle. exact Hm0. }
  pose proof (aspectRatio_pos img Hw Hh) as Hpos.
  pose proof (aspectRatio_portrait img Hh Hlt) as Har.
  pose proof (scaled_up_portrait maxPix _ Hmq Hpos Har) as Hup.
  unfold sizePassiveCanvas. rewrite (proj2 (Z.leb_gt _ _) Hlt). simpl.
  rewrite !reflectDimension_floor by lra.
  assert (Hfl : Qfloor maxPix = m) by (rewrite Hm; apply Qfloor_Z).
  split; [exact Hfl|]. split; [reflexivity|].
  rewrite <- Hfl. apply Qfloor_resp_le. exact Hup.
Qed.

Lemma passiveCanvas_min_side (maxPix : Q) (m : Z) (img : HTMLImageElement) :
  scalable maxPix m img ->
  Z.min (Canvas.width (sizePassiveCanvas maxPix img))
        (Canvas.height (sizePassiveCanvas maxPix img)) = m.
Proof.
  intros Hs.
  destruct (Z.le_gt_cases (naturalHeight img) (naturalWidth img)) as [Hle|Hlt].
  - destruct (sizePassiveCanvas_landscape maxPix m img Hs Hle) as (Hh & _ & Hw). lia.
  - destruct (sizePassiveCanvas_portrait maxPix m img Hs Hlt) as (Hw & _ & Hh). lia.
Qed.

(** X2: for a decoded image and an integer [maxPix] that fits the canvas,
    the shorter side of the passive canvas is exactly [maxPix] and the
    canvas keeps the orientation of the image: a landscape (or square)
    image gets height [maxPix] and a width at least as large, a portrait
    image gets width [maxPix] and a height at least as large. *)
Theorem sizePassiveCanvas_shorter_side (maxPix : Q) (m : Z) (img : HTMLImageElement) :
  scalable maxPix m img ->
  let c := sizePassiveCanvas maxPix img in
  Z.min (Canvas.width c) (Canvas.height c) = m
  /\ ((naturalHeight img <= naturalWidth img)%Z ->
      Canvas.height c = m /\ (Canvas.height c <= Canvas.width c)%Z)
  /\ ((naturalWidth img < naturalHeight img)%Z ->
      Canvas.width c = m /\ (Canvas.width c <= Canvas.height c)%Z).
Proof.
  intros Hs c. unfold c.
  destruct (Z.le_gt_cases (naturalHeight img) (naturalWidth img)) as [Hle|Hlt].
  - destruct (sizePassiveCanvas_landscape maxPix m img Hs Hle) as (Hh & _ & Hw).
    split; [lia|]. split; [intros _; lia|intros Hlt; lia].
  - destruct (sizePassiveCanvas_portrait maxPix m img Hs Hlt) as (Hw & _ & Hh).
    split; [lia|]. split; [intros Hle; lia|intros _; lia].
Qed.

Lemma sizePassiveCanvas_shorter_side_witness :
  scalable 416 416 landscapeImage
  /\ Z.min (Canvas.width (sizePassiveCanvas 416 landscapeImage))
           (Canvas.height (sizePassiveCanvas 416 landscapeImage)) = 416%Z.
Proof.
  assert (Hs : scalable 416 416 landscapeImage).
  { unfold scalable, landscapeImage; simpl.
    repeat split; try lia; try reflexivity; vm_compute; reflexivity. }
  split; [exact Hs|].
  exact (proj1 (sizePassiveCanvas_shorter_side 416 416 landscapeImage Hs)).
Defined.




(** ** The prediction square *)

Lemma drawPredRects_inside (c : Canvas.t) :
  let r := drawPredRects c in
  Rect.width r = Rect.height r
  /\ Rect.width r == inject_Z (Z.min (Canvas.width c) (Canvas.height c))
  /\ 0 <= Rect.x r /\ 0 <= Rect.y r
  /\ Rect.x r + Rect.width r <= inject_Z (Canvas.width c)
  /\ Rect.y r + Rect.height r <= inject_Z (Canvas.height c).
Proof.
  intros r. unfold r, drawPredRects. simpl.
  set (w := inject_Z (Canvas.width c)). set (h := inject_Z (Canvas.height c)).
  split; [reflexivity|].
  assert (Hw2 : w / 2 + w / 2 == w) by field.
  assert (Hh2 : h / 2 + h / 2 == h) by field.
  destruct (Qmin_case_le w h) as [[Hle E]|[Hle E]]; rewrite !E.
  - assert (Hz : (Canvas.width c <= Canvas.height c)%Z)
      by (rewrite Zle_Qle; exact Hle).
    rewrite Z.min_l by exact Hz. fold w.
    set (w2 := w / 2) in *. set (h2 := h / 2) in *.
    repeat split; try reflexivity; lra.
  - assert (Hz : (Canvas.height c <= Canvas.width c)%Z)
      by (rewrite Zle_Qle; exact Hle).
    rewrite Z.min_r by exact Hz. fold h.
    set (w2 := w / 2) in *. set (h2 := h / 2) in *.
    repeat split; try reflexivity; lra.
Qed.

(** With a scalable image the prediction square has side [maxPix] and the
    crop of [predict] stays within the passive canvas. *)
Lemma layoutBoard_square_side (maxPix : Q) (m : Z) (img : HTMLImageElement) :
  scalable maxPix m img ->
  Rect.width (predictionsRect (layoutBoard maxPix img)) == maxPix
  /\ Rect.height (predictionsRect (layoutBoard maxPix img)) == maxPix
  /\ cropInBounds maxPix (layoutBoard maxPix img).
Proof.
  intros Hs.
  pose proof (passiveCanvas_min_side maxPix m img Hs) as Hmin.
  destruct (drawPredRects_inside (sizePassiveCanvas maxPix img))
    as (Hsq & Hside & Hx & Hy & Hxw & Hyh).
  rewrite Hmin in Hside. destruct Hs as (_ & _ & Hm & _).
  unfold cropInBounds.
  change (predictionsRect (layoutBoard maxPix img))
    with (drawPredRects (sizePassiveCanvas maxPix img)).
  change (passiveCanvas (layoutBoard maxPix img))
    with (sizePassiveCanvas maxPix img).
  set (r := drawPredRects (sizePassiveCanvas maxPix img)) in *.
  assert (Hw : Rect.width r == maxPix) by (rewrite Hside, Hm; reflexivity).
  assert (Hh : Rect.height r == maxPix) by (rewrite <- Hsq; exact Hw).
  split; [exact Hw|]. split; [exact Hh|].
  rewrite Hw in Hxw. rewrite Hh in Hyh.
  repeat split; assumption.
Qed.

(** X4: for every canvas, the rect of [drawPredRects] is a square whose
    side is the shorter side of the canvas; it lies inside the canvas, is
    centred in it, and touches the canvas border along the longer side. *)
Theorem drawPredRects_centred_square (c : Canvas.t) :
  let r := drawPredRects c in
  let w := inject_Z (Canvas.width c) in
  let h := inject_Z (Canvas.height c) in
  Rect.width r = Rect.height r
  /\ Rect.width r == inject_Z (Z.min (Canvas.width c) (Canvas.height c))
  /\ 0 <= Rect.x r /\ 0 <= Rect.y r
  /\ Rect.x r + Rect.width r <= w
  /\ Rect.y r + Rect.height r <= h
  /\ Rect.x r + Rect.width r / 2 == w / 2
  /\ Rect.y r + Rect.height r / 2 == h / 2
  /\ ((Canvas.height c <= Canvas.width c)%Z -> Rect.y r == 0)
  /\ ((Canvas.width c <= Canvas.height c)%Z -> Rect.x r == 0).
Proof.
  intros r w h. unfold r, drawPredRects. simpl. fold w h.
  split; [reflexivity|].
  assert (Hw2 : w / 2 + w / 2 == w) by field.
  assert (Hh2 : h / 2 + h / 2 == h) by field.
  destruct (Qmin_case_le w h) as [[Hle E]|[Hle E]]; rewrite !E.
  - assert (Hz : (Canvas.width c <= Canvas.height c)%Z)
      by (rewrite Zle_Qle; exact Hle).
    rewrite Z.min_l by exact Hz. fold w.
    set (w2 := w / 2) in *. set (h2 := h / 2) in *.
    split; [reflexivity|]. split; [lra|]. split; [lra|]. split; [lra|].
    split; [lra|]. split; [lra|]. split; [lra|].
    split; [|intros _; lra].
    intros Hge. assert (Heq : Canvas.width c = Canvas.height c) by lia.
    assert (Hwh : w == h) by (unfold w, h; rewrite Heq; reflexivity).
    lra.
  - assert (Hz : (Canvas.height c <= Canvas.width c)%Z)
      by (rewrite Zle_Qle; exact Hle).
    rewrite Z.min_r by exact Hz. fold h.
    set (w2 := w / 2) in *. set (h2 := h / 2) in *.
    split; [reflexivity|]. split; [lra|]. split; [lra|]. split; [lra|].
    split; [lra|]. split; [lra|]. split; [lra|].
    split; [intros _; lra|].
    intros Hge. assert (Heq : Canvas.width c = Canvas.height c) by lia.
    assert (Hwh : w == h) by (unfold w, h; rewrite Heq; reflexivity).
    lra.
Qed.

Lemma drawPredRects_centred_square_witness :
  Rect.y (drawPredRects (Canvas.mk 554 416)) == 0
  /\ Rect.x (drawPredRects (Canvas.mk 554 416)) == 69
  /\ Rect.width (drawPredRects (Canvas.mk 554 416)) == 416.
Proof.
  destruct (drawPredRects_centred_square (Canvas.mk 554 416))
    as (_ & _ & _ & _ & _ & _ & _ & _ & Hy & _).
  split; [apply Hy; simpl; lia|].
  split; vm_compute; reflexivity.
Defined.

(** X5: after [loadScaledImageToCanvas] has sized the canvas and
    [drawPredRects] has run, the prediction square has side [maxPix], and
    the crop that [predict] slices out of the image data,
    [[y, x] .. [y + maxPix, x + maxPix]], lies within the passive canvas. *)
Theorem layoutBoard_crop_in_bounds (maxPix : Q) (m : Z) (img : HTMLImageElement) :
  scalable maxPix m img ->
  let b := layoutBoard maxPix img in
  Rect.width (predictionsRect b) == maxPix
  /\ Rect.height (predictionsRect b) == maxPix
  /\ cropInBounds maxPix b.
Proof.
  intros Hs b. exact (layoutBoard_square_side maxPix m img Hs).
Qed.

Lemma layoutBoard_crop_in_bounds_witness :
  scalable 416 416 landscapeImage
  /\ cropInBounds 416 (layoutBoard 416 landscapeImage).
Proof.
  assert (Hs : scalable 416 416 landscapeImage).
  { unfold scalable, landscapeImage; simpl.
    repeat split; try lia; try reflexivity; vm_compute; reflexivity. }
  split; [exact Hs|].
  exact (proj2 (proj2 (layoutBoard_crop_in_bounds 416 416 landscapeImage Hs))).
Defined.

(** X6: a square image gets a [maxPix] by [maxPix] canvas, and the
    prediction square is the whole canvas. *)
Theorem layoutBoard_square_image (maxPix : Q) (m : Z) (img : HTMLImageElement) :
  scalable maxPix m img ->
  naturalWidth img = naturalHeight img ->
  let b := layoutBoard maxPix img in
  passiveCanvas b = Canvas.mk m m
  /\ Rect.x (predictionsRect b) == 0 /\ Rect.y (predictionsRect b) == 0
  /\ Rect.width (predictionsRect b) == maxPix
  /\ Rect.height (predictionsRect b) == maxPix.
Proof.
  intros Hs Heq b. subst b.
  assert (Hle : (naturalHeight img <= naturalWidth img)%Z) by lia.
  destruct (sizePassiveCanvas_landscape maxPix m img Hs Hle) as (Hh & Hw & _).
  pose proof Hs as (_ & Hh0 & Hm & _).
  assert (Har : aspectRatio img == 1).
  { unfold aspectRatio. rewrite Heq. field.
    intros E. apply (Qlt_irrefl 0). rewrite <- E at 2.
    change 0 with (inject_Z 0). rewrite <- Zlt_Qlt. exact Hh0. }
  assert (Hw' : Canvas.width (sizePassiveCanvas maxPix img) = m).
  { rewrite Hw, Har, Qmult_1_r, Hm. apply Qfloor_Z. }
  assert (Hc : sizePassiveCanvas maxPix img = Canvas.mk m m).
  { destruct (sizePassiveCanvas maxPix img); simpl in *. congruence. }
  destruct (layoutBoard_square_side maxPix m img Hs) as (Hrw & Hrh & Hcrop).
  split; [exact Hc|].
  destruct Hcrop as (Hx0 & Hy0 & Hxw & Hyh).
  set (r := predictionsRect (layoutBoard maxPix img)) in *.
  change (passiveCanvas (layoutBoard maxPix img))
    with (sizePassiveCanvas maxPix img) in Hxw, Hyh.
  rewrite Hw' in Hxw. rewrite Hh in Hyh. rewrite <- Hm in Hxw, Hyh.
  split; [lra|]. split; [lra|].
  split; assumption.
Qed.

Lemma layoutBoard_square_image_witness :
  scalable 416 416 squareImage
  /\ passiveCanvas (layoutBoard 416 squareImage) = Canvas.mk 416 416.
Proof.
  assert (Hs : scalable 416 416 squareImage).
  { unfold scalable, squareImage; simpl.
    repeat split; try lia; try reflexivity; vm_compute; reflexivity. }
  split; [exact Hs|].
  exact (proj1 (layoutBoard_square_image 416 416 squareImage Hs eq_refl)).
Defined.

(** * More on [predict] and its caller *)

Lemma detect_above_threshold s classNames keepScores boxesArr results classIndx i
    results' :
  detect s classNames keepScores boxesArr results classIndx i = Ok results' ->
  Forall (fun d => classProbThreshold s <= probability d) results ->
  Forall (fun d => classProbThreshold s <= probability d) results'.
Proof.
  unfold detect, readOr. intros Hrun Hres.
  destruct (keepScores !! i) as [p|]; simpl in Hrun; [|discriminate].
  destruct (Qlt_bool p (classProbThreshold s)) eqn:E.
  - injection Hrun as <-. exact Hres.
  - destruct (boxesArr !! i) as [c|]; simpl in Hrun; [|discriminate].
    injection Hrun as <-. apply Forall_app. split; [exact Hres|].
    constructor; [|constructor]. simpl. apply Qlt_bool_false. exact E.
Qed.

(** X7: [predict] never returns a detection whose probability is below
    [classProbThreshold], whatever the filtering and suppression helpers
    answered. *)
Theorem predict_above_threshold `{TfMath} (s : AppSettings)
    (classNames : list string) (modelOutput : RawOutput)
    (dets : list IDetectedObject) (d : IDetectedObject) :
  predict s classNames modelOutput = Ok dets ->
  d ∈ dets ->
  classProbThreshold s <= probability d.
Proof.
  intros Hrun Hin.
  destruct (predict_unfold _ _ _ _ Hrun) as [filtered Hf].
  assert (Hall : Forall (fun d => classProbThreshold s <= probability d) dets).
  { unfold predictFiltered in Hf. destruct filtered as [[[boxes scores] classes]|].
    - destruct (nonMaxSuppression _ _ _) as [[keepIndx boxesArr] keepScores].
      destruct (gather classes keepIndx) as [cs|e]; simpl in Hf; [|discriminate].
      eapply (forEach_invariant
                (Forall (fun d => classProbThreshold s <= probability d)));
        [|exact Hf|constructor].
      intros acc a i acc'. apply detect_above_threshold.
    - injection Hf as <-. constructor. }
  rewrite Forall_forall in Hall. exact (Hall d Hin).
Qed.

Lemma predict_above_threshold_witness :
  exists d,
    predict (H := rationalTf) demoSettings demoClassNames demoOutput = Ok [d]
    /\ classProbThreshold demoSettings <= probability d.
Proof.
  set (d := match predict (H := rationalTf) demoSettings demoClassNames demoOutput with
            | Ok (d :: _) => d
            | _ => mkIDetectedObject None 0 (mkIRect 0 0 0 0)
            end).
  assert (Hrun : predict (H := rationalTf) demoSettings demoClassNames demoOutput
                 = Ok [d]) by (vm_compute; reflexivity).
  exists d. split; [exact Hrun|].
  apply (predict_above_threshold (H := rationalTf) demoSettings demoClassNames
           demoOutput [d] d Hrun).
  apply list_elem_of_here.
Defined.






(** ** The painted predictions *)

Lemma placePrediction_inside (pr : Rect.t) (maxPix : Q) (p : IDetectedObject) :
  Rect.width pr == maxPix -> Rect.height pr == maxPix ->
  insideSquare maxPix (rect p) ->
  insideRect pr (rect (placePrediction pr p)).
Proof.
  intros Hw Hh (Hx & Hy & Hxw & Hyh).
  unfold insideRect; simpl. rewrite Hw, Hh. repeat split; lra.
Qed.

(** X9: for a scalable image, every prediction that
    [loadScaledImageToCanvas] hands to the painter has, once moved by the
    corner of the prediction square, a rect that lies inside that square
    and so inside both canvases. *)
Theorem painted_predictions_inside `{TfMath} (s : AppSettings)
    (classNames : list string) (img : HTMLImageElement) (modelOutput : RawOutput)
    (m : Z) (painted : list IDetectedObject) (d : IDetectedObject) :
  scalable (maxPix s) m img ->
  snd (loadScaledImageToCanvas s classNames img modelOutput) = Ok painted ->
  d ∈ painted ->
  let b := fst (loadScaledImageToCanvas s classNames img modelOutput) in
  insideRect (predictionsRect b) (rect d)
  /\ insideCanvas (passiveCanvas b) (rect d)
  /\ insideCanvas (activeCanvas b) (rect d).
Proof.
  intros Hs Hrun Hin b. subst b. unfold loadScaledImageToCanvas in *. simpl in *.
  destruct (predict s classNames modelOutput) as [predictions|e] eqn:Hp;
    simpl in Hrun; [|discriminate].
  injection Hrun as <-.
  apply list_elem_of_In, in_map_iff in Hin. destruct Hin as (p & <- & Hin).
  destruct (predict_unfold _ _ _ _ Hp) as [filtered Hf].
  apply predictFiltered_inside in Hf. rewrite Forall_forall in Hf.
  pose proof (Hf p (proj2 (list_elem_of_In _ _) Hin)) as Hsq.
  destruct (layoutBoard_square_side (maxPix s) m img Hs) as (Hw & Hh & Hcrop).
  pose proof (placePrediction_inside _ _ p Hw Hh Hsq) as Hinside.
  split; [exact Hinside|].
  assert (Hcanvas : insideCanvas (passiveCanvas (layoutBoard (maxPix s) img))
                      (rect (placePrediction
                               (predictionsRect (layoutBoard (maxPix s) img)) p))).
  { destruct Hinside as (Hx & Hy & Hxw & Hyh).
    destruct Hcrop as (Hx0 & Hy0 & Hcw & Hch).
    rewrite Hw in Hxw. rewrite Hh in Hyh.
    unfold insideCanvas. repeat split; lra. }
  split; [exact Hcanvas|].
  change (activeCanvas (layoutBoard (maxPix s) img))
    with (sizeActiveCanvas (sizePassiveCanvas (maxPix s) img)).
  rewrite sizeActiveCanvas_same. exact Hcanvas.
Qed.

Lemma painted_predictions_inside_witness :
  exists d,
    scalable (maxPix demoSettings) 416 landscapeImage
    /\ snd (loadScaledImageToCanvas (H := rationalTf) demoSettings demoClassNames
              landscapeImage demoOutput) = Ok [d]
    /\ insideRect
         (predictionsRect
            (fst (loadScaledImageToCanvas (H := rationalTf) demoSettings
                    demoClassNames landscapeImage demoOutput)))
         (rect d).
Proof.
  set (d := match snd (loadScaledImageToCanvas (H := rationalTf) demoSettings
                         demoClassNames landscapeImage demoOutput) with
            | Ok (d :: _) => d
            | _ => mkIDetectedObject None 0 (mkIRect 0 0 0 0)
            end).
  assert (Hs : scalable (maxPix demoSettings) 416 landscapeImage).
  { unfold scalable, landscapeImage; simpl.
    repeat split; try lia; try reflexivity; vm_compute; reflexivity. }
  assert (Hrun : snd (loadScaledImageToCanvas (H := rationalTf) demoSettings
                        demoClassNames landscapeImage demoOutput) = Ok [d])
    by (vm_compute; reflexivity).
  exists d. split; [exact Hs|]. split; [exact Hrun|].
  apply (painted_predictions_inside (H := rationalTf) demoSettings demoClassNames
           landscapeImage demoOutput 416 [d] d Hs Hrun).
  apply list_elem_of_here.
Defined.

(** * The component *)

Lemma handle_keeps_board {Model File} (createObjectURL : File -> string)
    (c : ImageLoader Model) (e : Event Model File) :
  (isLoading (state c) = false ->
   isLoading (state (handle createObjectURL c e)) = false)
  /\ (isPredictionActive (state c) = true ->
      isPredictionActive (state (handle createObjectURL c e)) = true).
Proof.
  destruct e as [m|files|]; simpl.
  - split; [reflexivity|auto].
  - unfold onImageUpload. destruct (files !! 0%nat); simpl; auto.
  - auto.
Qed.

(** X10: no handler takes the board down: once [render] shows the two
    canvases it shows them after any further sequence of model, upload and
    image events, and the loading screen never comes back. *)
Theorem board_stays_rendered {Model File} (createObjectURL : File -> string)
    (events : list (Event Model File)) (c : ImageLoader Model) :
  render (state c) = ImageLoaderView true ->
  render (state (foldl (handle createObjectURL) c events)) = ImageLoaderView true.
Proof.
  revert c. induction events as [|e events IH]; intros c Hc; [exact Hc|].
  simpl. apply IH.
  destruct (handle_keeps_board createObjectURL c e) as [Hl Hp].
  unfold render in *.
  destruct (isLoading (state c)) eqn:El; [discriminate|].
  destruct (isPredictionActive (state c)) eqn:Ep; [|discriminate].
  rewrite (Hl eq_refl), (Hp eq_refl). reflexivity.
Qed.

Lemma board_stays_rendered_witness :
  render (state (foldl (handle blobUrl)
                   (mkImageLoader (mkState true false) (Some tt) (Some "blob:a"%string))
                   [ImageUpload []; ImageLoad; ImageUpload ["b"%string];
                    ModelLoaded tt]))
  = ImageLoaderView true.
Proof.
  apply (board_stays_rendered blobUrl). reflexivity.
Defined.

Lemma constructor_consistent {Model} : consistent (@constructor Model).
Proof.
  unfold consistent, constructor; simpl.
  split; [tauto|]. split; [split; [discriminate|congruence]|congruence].
Qed.

Lemma handle_consistent {Model File} (createObjectURL : File -> string)
    (c : ImageLoader Model) (e : Event Model File) :
  enabled c e = true -> consistent c -> consistent (handle createObjectURL c e).
Proof.
  intros Hen (Hload & Hact & Hsrc). destruct e as [m|files|]; simpl in *.
  - unfold consistent; simpl.
    split; [split; [discriminate|discriminate]|].
    split; [exact Hact|]. intros _. reflexivity.
  - assert (Hl : isLoading (state c) = false).
    { unfold render in Hen. destruct (isLoading (state c)); [discriminate|reflexivity]. }
    unfold onImageUpload. destruct (files !! 0%nat) as [file|].
    + unfold consistent; simpl.
      split; [exact Hload|]. split; [split; [discriminate|reflexivity]|].
      intros _. exact Hl.
    + split; [exact Hload|]. split; assumption.
  - split; [exact Hload|]. split; assumption.
Qed.

Lemma run_consistent {Model File} (createObjectURL : File -> string)
    (events : list (Event Model File)) (c c' : ImageLoader Model) :
  run createObjectURL events c = Some c' -> consistent c -> consistent c'.
Proof.
  revert c. induction events as [|e events IH]; intros c Hrun Hc.
  - simpl in Hrun. injection Hrun as <-. exact Hc.
  - simpl in Hrun. destruct (enabled c e) eqn:Hen; [|discriminate].
    apply (IH _ Hrun). apply handle_consistent; assumption.
Qed.

(** X11: along every run from the constructor in which the file input
    fires only while rendered and [img] fires [load] only after its source
    was set, whenever the [load] handler can run the model has been loaded
    and [render] shows the two canvases that the handler draws on. *)
Theorem load_handler_finds_model_and_board {Model File}
    (createObjectURL : File -> string) (events : list (Event Model File))
    (c : ImageLoader Model) :
  run createObjectURL events constructor = Some c ->
  enabled c (@ImageLoad Model File) = true ->
  model c <> None /\ render (state c) = ImageLoaderView true.
Proof.
  intros Hrun Hen.
  destruct (run_consistent createObjectURL events _ _ Hrun constructor_consistent)
    as (Hload & Hact & Hsrc).
  simpl in Hen.
  assert (Hs : imgSrc c <> None) by (destruct (imgSrc c); [discriminate|discriminate]).
  pose proof (Hsrc Hs) as Hl. pose proof (proj2 Hact Hs) as Hp.
  split.
  - intros Hm. apply Hload in Hm. congruence.
  - unfold render. rewrite Hl, Hp. reflexivity.
Qed.

Lemma load_handler_finds_model_and_board_witness :
  exists c : ImageLoader unit,
    run blobUrl [ModelLoaded tt; ImageUpload []; ImageUpload ["cat.png"%string]]
      constructor = Some c
    /\ model c <> None /\ render (state c) = ImageLoaderView true.
Proof.
  set (c := mkImageLoader (mkState true false) (Some tt)
              (Some (blobUrl "cat.png"%string))).
  assert (Hrun : run blobUrl
                   [ModelLoaded tt; ImageUpload []; ImageUpload ["cat.png"%string]]
                   constructor = Some c) by reflexivity.
  exists c. split; [exact Hrun|].
  apply (load_handler_finds_model_and_board blobUrl _ c Hrun). reflexivity.
Defined.

(** ** Where the crop starts *)

Lemma half_integer (d : Z) :
  (exists k : Z, inject_Z d / 2 == inject_Z k) <-> Z.even d = true.
Proof.
  split.
  - intros [k Hk]. apply Z.even_spec. exists k.
    assert (E : inject_Z d == inject_Z (2 * k)).
    { rewrite inject_Z_mult. change (inject_Z 2) with 2.
      rewrite <- Hk. field. }
    exact (proj1 (inject_Z_injective d (2 * k)) E).
  - intros He. apply Z.even_spec in He. destruct He as [k ->]. exists k.
    rewrite inject_Z_mult. change (inject_Z 2) with 2. field.
Qed.

(** X12: the corner of the prediction square, where [predict] starts its
    crop, is half the excess of each canvas side over the square:
    [2 * x = width - side] and [2 * y = height - side].  It is a whole
    number of pixels exactly when the two sides of the canvas have the same
    parity, and a half pixel otherwise. *)
Theorem drawPredRects_corner_parity (c : Canvas.t) :
  let r := drawPredRects c in
  let side := Z.min (Canvas.width c) (Canvas.height c) in
  Rect.x r == inject_Z (Canvas.width c - side) / 2
  /\ Rect.y r == inject_Z (Canvas.height c - side) / 2
  /\ (((exists k : Z, Rect.x r == inject_Z k) /\ (exists k : Z, Rect.y r == inject_Z k))
      <-> Z.even (Canvas.width c - Canvas.height c) = true).
Proof.
  intros r side.
  destruct (drawPredRects_inside c) as (_ & Hside & _).
  fold r in Hside. fold side in Hside.
  assert (Hx : Rect.x r == inject_Z (Canvas.width c - side) / 2).
  { unfold Z.sub. rewrite inject_Z_plus, inject_Z_opp, <- Hside.
    unfold r, drawPredRects; simpl. field. }
  assert (Hy : Rect.y r == inject_Z (Canvas.height c - side) / 2).
  { unfold Z.sub. rewrite inject_Z_plus, inject_Z_opp, <- Hside.
    unfold r, drawPredRects; simpl. field. }
  split; [exact Hx|]. split; [exact Hy|].
  assert (Hxi : (exists k : Z, Rect.x r == inject_Z k)
                <-> Z.even (Canvas.width c - side) = true).
  { rewrite <- half_integer. split; intros [k Hk]; exists k.
    - rewrite <- Hx. exact Hk.
    - rewrite Hx. exact Hk. }
  assert (Hyi : (exists k : Z, Rect.y r == inject_Z k)
                <-> Z.even (Canvas.height c - side) = true).
  { rewrite <- half_integer. split; intros [k Hk]; exists k.
    - rewrite <- Hy. exact Hk.
    - rewrite Hy. exact Hk. }
  rewrite Hxi, Hyi. unfold side.
  destruct (Z.le_ge_cases (Canvas.width c) (Canvas.height c)) as [Hle|Hge].
  - rewrite Z.min_l by exact Hle. rewrite Z.sub_diag.
    replace (Canvas.width c - Canvas.height c)%Z
      with (- (Canvas.height c - Canvas.width c))%Z by lia.
    rewrite Z.even_opp. simpl. tauto.
  - rewrite Z.min_r by exact Hge. rewrite Z.sub_diag. simpl. tauto.
Qed.
